(** * OpenNOW login helper: a shallow embedding of [src/auth/login.cpp]

    The development follows the source file top-down: the anonymous-namespace
    helpers ([rotr], [sha256], [base64url], [url_encode], [url_decode],
    [random_alnum]) and then the [LoginService] members.  [std::string] is a
    [list ascii]; [uint8_t], [uint32_t] and [uint64_t] values are [Z] with the
    wrap-around written out; arrays are lists read with [!!!] and written with
    [<[ i := v ]>].  A function that may throw returns a [result]; a member
    function that talks to the operating system is a function of the [world],
    which holds what the system answers and the log of what was asked of it.
    The model is that of the POSIX build: the [_WIN32] branches
    ([WSAStartup], [WSACleanup]) are left out.  Loops whose number of
    iterations is bounded by the size of their input are unrolled by a
    [fuel] argument, and the lemmas on them show that the fuel given is
    enough. *)

From Stdlib Require Import ZArith List Ascii String Lia Bool DecimalString.
From stdpp Require Import base numbers option list strings.
Import ListNotations.
Local Open Scope Z_scope.

(** ** Machine integers *)

Definition u8 (x : Z) : Z := x mod 2 ^ 8.
Definition u32 (x : Z) : Z := x mod 2 ^ 32.
Definition u64 (x : Z) : Z := x mod 2 ^ 64.

(** [a + b], [x << n] and [~x] on [uint32_t]. *)
Definition add32 (a b : Z) : Z := u32 (a + b).
Definition shl32 (x n : Z) : Z := u32 (x ≪ n).
Definition not32 (x : Z) : Z := u32 (Z.lnot x).

Definition is_byte (b : Z) : Prop := 0 ≤ b < 256.

(** ** Strings *)

Definition str (s : string) : list ascii := list_ascii_of_string s.

(** The value of a [char] read as [unsigned char]. *)
Definition uchar (c : ascii) : Z := Z.of_N (N_of_ascii c).

(** [static_cast<char>] of an integer keeps its low eight bits. *)
Definition to_char (z : Z) : ascii := ascii_of_N (Z.to_N (u8 z)).

(** ** SHA-256 (login.cpp, lines 29-104) *)

(** The table is laid out as in the source, eight constants to a line. *)
Definition kTable : list Z :=
  [0x428a2f98; 0x71374491; 0xb5c0fbcf; 0xe9b5dba5; 0x3956c25b; 0x59f111f1; 0x923f82a4; 0xab1c5ed5] ++
  [0xd807aa98; 0x12835b01; 0x243185be; 0x550c7dc3; 0x72be5d74; 0x80deb1fe; 0x9bdc06a7; 0xc19bf174] ++
  [0xe49b69c1; 0xefbe4786; 0x0fc19dc6; 0x240ca1cc; 0x2de92c6f; 0x4a7484aa; 0x5cb0a9dc; 0x76f988da] ++
  [0x983e5152; 0xa831c66d; 0xb00327c8; 0xbf597fc7; 0xc6e00bf3; 0xd5a79147; 0x06ca6351; 0x14292967] ++
  [0x27b70a85; 0x2e1b2138; 0x4d2c6dfc; 0x53380d13; 0x650a7354; 0x766a0abb; 0x81c2c92e; 0x92722c85] ++
  [0xa2bfe8a1; 0xa81a664b; 0xc24b8b70; 0xc76c51a3; 0xd192e819; 0xd6990624; 0xf40e3585; 0x106aa070] ++
  [0x19a4c116; 0x1e376c08; 0x2748774c; 0x34b0bcb5; 0x391c0cb3; 0x4ed8aa4a; 0x5b9cca4f; 0x682e6ff3] ++
  [0x748f82ee; 0x78a5636f; 0x84c87814; 0x8cc70208; 0x90befffa; 0xa4506ceb; 0xbef9a3f7; 0xc67178f2].

Definition rotr (x n : Z) : Z := Z.lor (x ≫ n) (shl32 x (32 - n)).

(** The initial value of [h]. *)
Definition h_init : list Z :=
  [ 0x6a09e667;0xbb67ae85;0x3c6ef372;0xa54ff53a;0x510e527f;0x9b05688c;0x1f83d9ab;0x5be0cd19 ].

(** [while ((msg.size() % 64) != 56) msg.push_back(0x00);]  The loop runs at
    most 63 times; [fuel] bounds the unrolling and [pad_zeros_spec] below shows
    that 64 is enough for the loop to leave through its condition. *)
Fixpoint pad_zeros (fuel : nat) (msg : list Z) : list Z :=
  match fuel with
  | O => msg
  | S fuel' =>
      if negb (Z.of_nat (length msg) mod 64 =? 56)
      then pad_zeros fuel' (msg ++ [0x00])
      else msg
  end.

(** Lines 47-55: the padded message. *)
Definition sha256_padded (input : list ascii) : list Z :=
  let msg := map uchar input in
  let bit_len := u64 (Z.of_nat (length msg) * 8) in
  let msg := msg ++ [0x80] in
  let msg := pad_zeros 64 msg in
  fold_left (fun msg i => msg ++ [u8 (Z.land (bit_len ≫ (i * 8)) 0xff)])
            [7; 6; 5; 4; 3; 2; 1; 0] msg.

(** Lines 58-65: the first sixteen words of [w], read from [msg] at [offset]. *)
Definition w_load (msg : list Z) (offset : nat) (w : list Z) : list Z :=
  fold_left (fun w i =>
               let base := (offset + i * 4)%nat in
               <[ i := Z.lor (Z.lor (Z.lor (shl32 (msg !!! base) 24)
                                           (shl32 (msg !!! (base + 1)%nat) 16))
                                    (shl32 (msg !!! (base + 2)%nat) 8))
                             (msg !!! (base + 3)%nat) ]> w)
            (seq 0 16) w.

(** Lines 66-70: the remaining forty-eight words. *)
Definition w_extend (w : list Z) : list Z :=
  fold_left (fun w i =>
               let s0 := Z.lxor (Z.lxor (rotr (w !!! (i - 15)%nat) 7)
                                        (rotr (w !!! (i - 15)%nat) 18))
                                (w !!! (i - 15)%nat ≫ 3) in
               let s1 := Z.lxor (Z.lxor (rotr (w !!! (i - 2)%nat) 17)
                                        (rotr (w !!! (i - 2)%nat) 19))
                                (w !!! (i - 2)%nat ≫ 10) in
               <[ i := add32 (add32 (add32 (w !!! (i - 16)%nat) s0)
                                    (w !!! (i - 7)%nat)) s1 ]> w)
            (seq 16 48) w.

(** The eight working variables [a, b, c, d, e, f, g, hh]. *)
Record vars := Vars {
  va : Z; vb : Z; vc : Z; vd : Z; ve : Z; vf : Z; vg : Z; vhh : Z
}.

(** Lines 74-90: one iteration of the round loop. *)
Definition round (w : list Z) (v : vars) (i : nat) : vars :=
  let '(Vars a b c d e f g hh) := v in
  let s1 := Z.lxor (Z.lxor (rotr e 6) (rotr e 11)) (rotr e 25) in
  let ch := Z.lxor (Z.land e f) (Z.land (not32 e) g) in
  let temp1 := add32 (add32 (add32 (add32 hh s1) ch) (kTable !!! i)) (w !!! i) in
  let s0 := Z.lxor (Z.lxor (rotr a 2) (rotr a 13)) (rotr a 22) in
  let maj := Z.lxor (Z.lxor (Z.land a b) (Z.land a c)) (Z.land b c) in
  let temp2 := add32 s0 maj in
  Vars (add32 temp1 temp2) a b c (add32 d temp1) e f g.

(** Lines 58-93: the body of the block loop. *)
Definition process_block (msg : list Z) (offset : nat) (h : list Z) : list Z :=
  let w := replicate 64 0 in
  let w := w_load msg offset w in
  let w := w_extend w in
  let v := Vars (h !!! 0%nat) (h !!! 1%nat) (h !!! 2%nat) (h !!! 3%nat)
                (h !!! 4%nat) (h !!! 5%nat) (h !!! 6%nat) (h !!! 7%nat) in
  let '(Vars a b c d e f g hh) := fold_left (round w) (seq 0 64) v in
  let h := <[ 0%nat := add32 (h !!! 0%nat) a ]> h in
  let h := <[ 1%nat := add32 (h !!! 1%nat) b ]> h in
  let h := <[ 2%nat := add32 (h !!! 2%nat) c ]> h in
  let h := <[ 3%nat := add32 (h !!! 3%nat) d ]> h in
  let h := <[ 4%nat := add32 (h !!! 4%nat) e ]> h in
  let h := <[ 5%nat := add32 (h !!! 5%nat) f ]> h in
  let h := <[ 6%nat := add32 (h !!! 6%nat) g ]> h in
  <[ 7%nat := add32 (h !!! 7%nat) hh ]> h.

(** Line 57: [for (offset = 0; offset < msg.size(); offset += 64)].  Each
    iteration advances [offset] by 64, so [length msg] iterations are never
    needed; [fuel] is the bound of the unrolling. *)
Fixpoint block_loop (fuel : nat) (msg : list Z) (offset : nat) (h : list Z) : list Z :=
  match fuel with
  | O => h
  | S fuel' =>
      if (offset <? length msg)%nat
      then block_loop fuel' msg (offset + 64)%nat (process_block msg offset h)
      else h
  end.

(** Lines 96-102: the digest bytes, written four per word of [h]. *)
Definition sha256_output (h : list Z) : list Z :=
  fold_left (fun out i =>
               let out := <[ (i * 4)%nat := u8 (Z.land (h !!! i ≫ 24) 0xff) ]> out in
               let out := <[ (i * 4 + 1)%nat := u8 (Z.land (h !!! i ≫ 16) 0xff) ]> out in
               let out := <[ (i * 4 + 2)%nat := u8 (Z.land (h !!! i ≫ 8) 0xff) ]> out in
               <[ (i * 4 + 3)%nat := u8 (Z.land (h !!! i) 0xff) ]> out)
            (seq 0 8) (replicate 32 0).

Definition sha256 (input : list ascii) : list Z :=
  let msg := sha256_padded input in
  sha256_output (block_loop (length msg) msg 0 h_init).

(** Hexadecimal rendering of a digest, for reading results. *)
Definition hex_digit (n : Z) : ascii :=
  nth (Z.to_nat n) (str "0123456789abcdef") "?"%char.

Definition to_hex (bytes : list Z) : list ascii :=
  flat_map (fun b => [hex_digit (b / 16); hex_digit (b mod 16)]) bytes.

(** ** base64url (lines 106-138) *)

Definition alphabet : list ascii :=
  str "ABCDEFGHIJKLMNOPQRSTUVWXYZabcdefghijklmnopqrstuvwxyz0123456789-_".

(** [alphabet[idx]]; the array ends with the terminating NUL. *)
Definition alphabet_at (idx : Z) : ascii := nth (Z.to_nat idx) alphabet "000"%char.

(** Lines 114-123: [while (i + 2 < len)], three bytes per iteration. *)
Fixpoint base64url_loop (fuel : nat) (data : list Z) (i : nat) (out : list ascii)
  : nat * list ascii :=
  match fuel with
  | O => (i, out)
  | S fuel' =>
      if (i + 2 <? length data)%nat then
        let chunk := Z.lor (Z.lor (shl32 (data !!! i) 16)
                                  (shl32 (data !!! (i + 1)%nat) 8))
                           (data !!! (i + 2)%nat) in
        let out := out ++ [alphabet_at (Z.land (chunk ≫ 18) 0x3f)] in
        let out := out ++ [alphabet_at (Z.land (chunk ≫ 12) 0x3f)] in
        let out := out ++ [alphabet_at (Z.land (chunk ≫ 6) 0x3f)] in
        let out := out ++ [alphabet_at (Z.land chunk 0x3f)] in
        base64url_loop fuel' data (i + 3)%nat out
      else (i, out)
  end.

(** Lines 125-135: the one or two bytes left after the loop. *)
Definition base64url_tail (data : list Z) (i : nat) (out : list ascii) : list ascii :=
  let len := length data in
  if (i <? len)%nat then
    let b0 := data !!! i in
    let out := out ++ [alphabet_at (Z.land (b0 ≫ 2) 0x3f)] in
    if (i + 1 <? len)%nat then
      let b1 := data !!! (i + 1)%nat in
      let out := out ++ [alphabet_at (Z.lor (shl32 (Z.land b0 0x03) 4)
                                            (Z.land (b1 ≫ 4) 0x0f))] in
      out ++ [alphabet_at (shl32 (Z.land b1 0x0f) 2)]
    else
      out ++ [alphabet_at (shl32 (Z.land b0 0x03) 4)]
  else out.

Definition base64url (data : list Z) : list ascii :=
  let '(i, out) := base64url_loop (length data) data 0 [] in
  base64url_tail data i out.

(** ** Exceptions

    [std::stoi] and [std::string::substr] report failure by throwing; a
    computation that may throw returns a [result]. *)

Inductive exn := invalid_argument | out_of_range.

Inductive result (A : Type) :=
| Ok (a : A)
| Throw (e : exn).
Arguments Ok {A} a.
Arguments Throw {A} e.

#[global] Instance result_ret : MRet result := @Ok.

#[global] Instance result_bind : MBind result := λ A B k m,
  match m with
  | Ok a => k a
  | Throw e => Throw e
  end.

(** ** [std::string] members used by the source *)

(** [s.find(c)]: the first position of [c], [None] for [npos]. *)
Fixpoint find_char (c : ascii) (s : list ascii) : option nat :=
  match s with
  | [] => None
  | x :: s' => if Ascii.eqb x c then Some O else S <$> find_char c s'
  end.

(** [s.find(c, pos)]. *)
Definition find_from (c : ascii) (pos : nat) (s : list ascii) : option nat :=
  (fun i => (pos + i)%nat) <$> find_char c (drop pos s).

Fixpoint starts_with (pat s : list ascii) : bool :=
  match pat, s with
  | [], _ => true
  | _ :: _, [] => false
  | p :: pat', x :: s' => Ascii.eqb p x && starts_with pat' s'
  end.

(** [s.find(pat)] for a string pattern. *)
Fixpoint find_str (pat s : list ascii) : option nat :=
  if starts_with pat s then Some O
  else match s with
       | [] => None
       | _ :: s' => S <$> find_str pat s'
       end.

(** [s.rfind(pat, 0)]: only position 0 is a candidate. *)
Definition rfind_0 (pat s : list ascii) : option nat :=
  if starts_with pat s then Some O else None.

(** [s.substr(pos, count)], [count = None] for [npos]; throws
    [std::out_of_range] when [pos > s.size()]. *)
Definition substr (s : list ascii) (pos : nat) (count : option nat) : result (list ascii) :=
  if (length s <? pos)%nat then Throw out_of_range
  else Ok (match count with
           | None => drop pos s
           | Some n => take n (drop pos s)
           end).

(** [s[i]] *)
Definition char_at (s : list ascii) (i : nat) : ascii := nth i s "000"%char.

(** [std::to_string] of an integer: its decimal digits. *)
Definition to_string (n : Z) : list ascii := str (NilEmpty.string_of_int (Z.to_int n)).

(** ** Percent-encoding (lines 140-154) *)

Definition between (lo hi : ascii) (c : Z) : bool :=
  (uchar lo <=? c) && (c <=? uchar hi).

Definition unreserved (c : Z) : bool :=
  between "A" "Z" c || between "a" "z" c || between "0" "9" c
  || (c =? uchar "-") || (c =? uchar "_") || (c =? uchar ".") || (c =? uchar "~").

Definition upper_hex_digit (n : Z) : ascii :=
  nth (Z.to_nat n) (str "0123456789ABCDEF") "?"%char.

(** [<< std::uppercase << std::hex] on an [int] in [0, 255]: one or two
    digits, no leading zero. *)
Definition upper_hex (n : Z) : list ascii :=
  if n <? 16 then [upper_hex_digit n]
  else [upper_hex_digit (n / 16); upper_hex_digit (n mod 16)].

(** [std::setw(width) << std::setfill(fill)]: pad on the left. *)
Definition setw_setfill (width : nat) (fill : ascii) (s : list ascii) : list ascii :=
  replicate (width - length s) fill ++ s.

Definition url_encode (raw : list ascii) : list ascii :=
  fold_left (fun encoded ch =>
               let c := uchar ch in
               if unreserved c then encoded ++ [ch]
               else encoded ++ ["%"%char] ++ setw_setfill 2 "0" (upper_hex c))
            raw [].

(** ** Percent-decoding (lines 156-172) *)

Definition isspace (c : ascii) : bool :=
  let n := uchar c in (n =? 32) || ((9 <=? n) && (n <=? 13)).

Definition hex_value (c : ascii) : option Z :=
  let n := uchar c in
  if between "0" "9" n then Some (n - uchar "0")
  else if between "a" "f" n then Some (n - uchar "a" + 10)
  else if between "A" "F" n then Some (n - uchar "A" + 10)
  else None.

Fixpoint skip_spaces (s : list ascii) : list ascii :=
  match s with
  | c :: s' => if isspace c then skip_spaces s' else s
  | [] => []
  end.

(** The value of the longest prefix of hexadecimal digits. *)
Fixpoint hex_digits (s : list ascii) (acc : Z) : Z :=
  match s with
  | c :: s' => match hex_value c with
               | Some d => hex_digits s' (acc * 16 + d)
               | None => acc
               end
  | [] => acc
  end.

(** [std::stoi(s, nullptr, 16)]: [strtol] skips white space, then reads an
    optional sign, an optional [0x] and the hexadecimal digits; [stoi] throws
    [std::invalid_argument] when no digit was read and [std::out_of_range]
    when the value does not fit an [int]. *)
Definition stoi_16 (s : list ascii) : result Z :=
  let s := skip_spaces s in
  let '(negative, s) :=
    match s with
    | "+"%char :: s' => (false, s')
    | "-"%char :: s' => (true, s')
    | _ => (false, s)
    end in
  let s :=
    match s with
    | "0"%char :: x :: d :: s' =>
        if (Ascii.eqb x "x" || Ascii.eqb x "X") && bool_decide (is_Some (hex_value d))
        then d :: s' else s
    | _ => s
    end in
  match s with
  | c :: _ =>
      if bool_decide (is_Some (hex_value c)) then
        let v := hex_digits s 0 in
        let v := if negative then - v else v in
        if (- 2 ^ 31 <=? v) && (v <=? 2 ^ 31 - 1) then Ok v else Throw out_of_range
      else Throw invalid_argument
  | [] => Throw invalid_argument
  end.

(** The [for] loop of [url_decode]; [i] moves forward at every iteration, so
    [value.size()] iterations are enough. *)
Fixpoint url_decode_loop (fuel : nat) (value : list ascii) (i : nat) (out : list ascii)
  : result (list ascii) :=
  match fuel with
  | O => Ok out
  | S fuel' =>
      if (i <? length value)%nat then
        if Ascii.eqb (char_at value i) "%" && (i + 2 <? length value)%nat then
          hex ← substr value (i + 1) (Some 2%nat);
          n ← stoi_16 hex;
          url_decode_loop fuel' value (i + 2 + 1) (out ++ [to_char n])
        else if Ascii.eqb (char_at value i) "+" then
          url_decode_loop fuel' value (i + 1) (out ++ [" "%char])
        else
          url_decode_loop fuel' value (i + 1) (out ++ [char_at value i])
      else Ok out
  end.

Definition url_decode (value : list ascii) : result (list ascii) :=
  url_decode_loop (length value) value 0 [].

(** The same decoding by recursion on the text that is left: a [%] with two
    characters after it is an escape, whatever they are. *)
Fixpoint decode (s : list ascii) : result (list ascii) :=
  match s with
  | [] => Ok []
  | c :: tl =>
      let plain := decoded ← decode tl;
                   Ok ((if Ascii.eqb c "+" then " "%char else c) :: decoded) in
      match tl with
      | a :: b :: rest =>
          if Ascii.eqb c "%" then
            n ← stoi_16 [a; b];
            decoded ← decode rest;
            Ok (to_char n :: decoded)
          else plain
      | _ => plain
      end
  end.

(** Every escape of the text is [%] and two hexadecimal digits. *)
Fixpoint well_escaped (s : list ascii) : bool :=
  match s with
  | [] => true
  | c :: tl =>
      match tl with
      | a :: b :: rest =>
          if Ascii.eqb c "%" then
            bool_decide (is_Some (hex_value a)) && bool_decide (is_Some (hex_value b))
            && well_escaped rest
          else well_escaped tl
      | _ => well_escaped tl
      end
  end.

(** ** random_alnum (lines 174-186)

    The generator is state that every draw advances.  [dist a b g] stands for
    [std::uniform_int_distribution<std::size_t>(a, b)(rng)]: the value drawn
    and the next generator state. *)

Definition charset : list ascii :=
  str "ABCDEFGHIJKLMNOPQRSTUVWXYZabcdefghijklmnopqrstuvwxyz0123456789".

(** [sizeof(charset)] counts the terminating NUL. *)
Definition sizeof_charset : Z := Z.of_nat (length charset) + 1.

Section RandomSource.
Context {rng : Type} (dist : Z → Z → rng → Z * rng).

Fixpoint random_alnum_loop (n : nat) (g : rng) (result : list ascii)
  : list ascii * rng :=
  match n with
  | O => (result, g)
  | S n' =>
      let '(k, g') := dist 0 (sizeof_charset - 2) g in
      random_alnum_loop n' g' (result ++ [nth (Z.to_nat k) charset "000"%char])
  end.

Definition random_alnum (len : nat) (g : rng) : list ascii * rng :=
  random_alnum_loop len g [].
End RandomSource.

(** ** Sockets (lines 188-210)

    What the operating system answers is an input of the model; what the
    program asks of it is recorded, in order, in a log. *)

Definition socket_t := Z.
Definition kInvalidSocket : socket_t := -1.

Record net := Net {
  socket_ret : nat → socket_t;       (* result of the n-th call of [socket] *)
  bind_ret : Z → Z;                  (* result of [bind] on a loopback port *)
  listen_ret : Z;
  accept_ret : socket_t;
  recv_ret : option (list ascii)     (* the bytes received, [None] on error *)
}.

Inductive event :=
| EvSocket (s : socket_t)
| EvSetReuseAddr (s : socket_t)
| EvBind (s : socket_t) (port : Z)
| EvListen (s : socket_t) (backlog : Z)
| EvAccept (s : socket_t)
| EvRecv (s : socket_t) (len : nat)
| EvSend (s : socket_t) (payload : list ascii)
| EvClose (s : socket_t).

Record world := World {
  os : net;
  socket_calls : nat;
  log : list event
}.

(** A member function: it may throw, and it changes the world either way. *)
Definition io (A : Type) : Type := world → result A * world.

Definition io_ret {A} (a : A) : io A := fun w => (Ok a, w).

Definition io_bind {A B} (m : io A) (k : A → io B) : io B := fun w =>
  match m w with
  | (Ok a, w') => k a w'
  | (Throw e, w') => (Throw e, w')
  end.

Notation "'do' x <- m ; k" := (io_bind m (fun x => k))
  (at level 10, x name, m at level 100, k at level 200, format "'[v' 'do'  x  <-  m ; '/' k ']'").

(** A pure computation that may throw, run inside a member function. *)
Definition lift {A} (r : result A) : io A := fun w => (r, w).

Definition emit (e : event) : io unit := fun w =>
  (Ok tt, World (os w) (socket_calls w) (log w ++ [e])).

Definition sys_socket : io socket_t := fun w =>
  let s := socket_ret (os w) (socket_calls w) in
  (Ok s, World (os w) (S (socket_calls w)) (log w ++ [EvSocket s])).

Definition sys_setsockopt_reuseaddr (s : socket_t) : io unit := emit (EvSetReuseAddr s).

Definition sys_listen (s : socket_t) (backlog : Z) : io Z := fun w =>
  (Ok (listen_ret (os w)), World (os w) (socket_calls w) (log w ++ [EvListen s backlog])).

Definition sys_accept (s : socket_t) : io socket_t := fun w =>
  (Ok (accept_ret (os w)), World (os w) (socket_calls w) (log w ++ [EvAccept s])).

(** [recv(client, buffer.data(), len, 0)]: the number of bytes read (at most
    [len], negative on error) and the bytes stored. *)
Definition sys_recv (s : socket_t) (len : nat) : io (Z * list ascii) := fun w =>
  let r := match recv_ret (os w) with
           | Some data => (Z.of_nat (length (take len data)), take len data)
           | None => (-1, [])
           end in
  (Ok r, World (os w) (socket_calls w) (log w ++ [EvRecv s len])).

Definition sys_send (s : socket_t) (payload : list ascii) : io unit := emit (EvSend s payload).

Definition close_socket (s : socket_t) : io unit := emit (EvClose s).

Definition bind_localhost_port (sock : socket_t) (port : Z) : io bool := fun w =>
  (Ok (bind_ret (os w) port =? 0),
   World (os w) (socket_calls w) (log w ++ [EvBind sock port])).

(** ** namespace opennow::auth (login.hpp, login.cpp lines 213-408) *)

Record LoginProvider := {
  idp_id : list ascii;
  login_provider_code : list ascii;
  login_provider_display_name : list ascii;
  login_provider : list ascii;
  streaming_service_url : list ascii;
  login_provider_priority : Z
}.

Record PkceChallenge := {
  verifier : list ascii;
  challenge : list ascii
}.

Definition kClientId : list ascii := str "ZU7sPN-miLujMD95LfOQ453IB0AtjM8sMyvgJ9wCXEQ".
Definition kScopes : list ascii := str "openid consent email tk_client age".
Definition kRedirectPorts : list Z := [2259; 6460; 7119; 8870; 9096].

Definition nvidia_default : LoginProvider := {|
  idp_id := str "PDiAhv2kJTFeQ7WOPqiQ2tRZ7lGhR2X11dXvM4TZSxg";
  login_provider_code := str "NVIDIA";
  login_provider_display_name := str "NVIDIA";
  login_provider := str "NVIDIA";
  streaming_service_url := str "https://prod.cloudmatchbeta.nvidiagrid.net/";
  login_provider_priority := 0
|}.

Definition is_alliance_partner (p : LoginProvider) : bool :=
  negb (bool_decide (login_provider_code p = str "NVIDIA")).

Definition make_pkce_challenge {rng} (dist : Z → Z → rng → Z * rng) (g : rng)
  : PkceChallenge * rng :=
  let '(verifier, g') := random_alnum dist 64 g in
  let digest := sha256 verifier in
  ({| verifier := verifier; challenge := base64url digest |}, g').

(** [now] is the reading of the high-resolution clock. *)
Definition generate_nonce (now : Z) : list ascii :=
  let digest := sha256 (to_string now ++ str ":nonce") in
  base64url digest.

Definition device_id : list ascii :=
  let digest := sha256 (str "opennow-rewrite-device") in
  base64url digest.

Definition build_auth_url (now : Z) (pkce : PkceChallenge) (callback_port : Z)
    (provider : LoginProvider) : list ascii :=
  let redirect_uri := str "http://localhost:" ++ to_string callback_port in
  str "https://login.nvidia.com/authorize?"
    ++ str "response_type=code"
    ++ str "&device_id=" ++ url_encode device_id
    ++ str "&scope=" ++ url_encode kScopes
    ++ str "&client_id=" ++ url_encode kClientId
    ++ str "&redirect_uri=" ++ url_encode redirect_uri
    ++ str "&ui_locales=en_US"
    ++ str "&nonce=" ++ url_encode (generate_nonce now)
    ++ str "&prompt=select_account"
    ++ str "&code_challenge=" ++ url_encode (challenge pkce)
    ++ str "&code_challenge_method=S256"
    ++ str "&idp_id=" ++ url_encode (idp_id provider).

(** The range-[for] over [kRedirectPorts]. *)
Fixpoint pick_callback_port_loop (ports : list Z) : io (option Z) :=
  match ports with
  | [] => io_ret None
  | port :: rest =>
      do s <- sys_socket;
      if s =? kInvalidSocket then pick_callback_port_loop rest
      else
        do ok <- bind_localhost_port s port;
        do _ <- close_socket s;
        if ok : bool then io_ret (Some port)
        else pick_callback_port_loop rest
  end.

Definition pick_callback_port : io (option Z) :=
  pick_callback_port_loop kRedirectPorts.

(** The [while (cursor < query.size())] loop; [cursor] grows at every
    iteration that does not leave the loop. *)
Fixpoint extract_code_loop (fuel : nat) (query : list ascii) (cursor : nat)
  : result (option (list ascii)) :=
  match fuel with
  | O => Ok None
  | S fuel' =>
      if (cursor <? length query)%nat then
        let amp := find_from "&" cursor query in
        param ← substr query cursor
                  (match amp with
                   | None => None
                   | Some a => Some (a - cursor)%nat
                   end);
        if bool_decide (rfind_0 (str "code=") param = Some O) && (5 <? length param)%nat
        then
          value ← substr param 5 None;
          decoded ← url_decode value;
          Ok (Some decoded)
        else
          match amp with
          | None => Ok None
          | Some a => extract_code_loop fuel' query (a + 1)
          end
      else Ok None
  end.

Definition extract_code_from_callback_target (callback_target : list ascii)
  : result (option (list ascii)) :=
  match find_from "?" 0 callback_target with
  | None => Ok None
  | Some query_pos =>
      query ← substr callback_target (query_pos + 1) None;
      extract_code_loop (length query) query 0
  end.

Definition response : list ascii :=
  str "HTTP/1.1 200 OK" ++ ["013"; "010"]%char
  ++ str "Content-Type: text/html" ++ ["013"; "010"; "013"; "010"]%char
  ++ str "<html><body><h1>Login Successful</h1><p>You can return to OpenNOW Rewrite.</p></body></html>".

(** [std::string req(buffer.data())]: the buffer up to its first NUL. *)
Fixpoint c_string (buffer : list ascii) : list ascii :=
  match buffer with
  | [] => []
  | c :: rest => if Ascii.eqb c "000" then [] else c :: c_string rest
  end.

(** [first_space + 1] on [std::size_t]: [npos + 1] wraps to 0. *)
Definition succ_wrap (pos : option nat) : nat :=
  match pos with
  | None => O
  | Some p => S p
  end.

(** Lines 367-379: the request target of the first line, when it has one. *)
Definition request_target (req : list ascii) : result (option (list ascii)) :=
  let line_end := find_str ["013"; "010"]%char req in
  first_line ← substr req 0 line_end;
  let first_space := find_from " " 0 first_line in
  let second_space := find_from " " (succ_wrap first_space) first_line in
  match first_space, second_space with
  | Some fs, Some ss =>
      target ← substr first_line (fs + 1) (Some (ss - fs - 1)%nat);
      Ok (Some target)
  | _, _ => Ok None
  end.

(** Lines 367-379: from what [recv] returned to the code, if any. *)
Definition parse_request (read_bytes : Z) (buffer : list ascii)
  : result (option (list ascii)) :=
  if 0 <? read_bytes then
    let buffer := <[ Z.to_nat read_bytes := "000"%char ]> buffer in
    let req := c_string buffer in
    target ← request_target req;
    match target with
    | Some target => extract_code_from_callback_target target
    | None => Ok None
    end
  else Ok None.

Definition wait_for_callback_code (callback_port : Z) : io (option (list ascii)) :=
  do server <- sys_socket;
  if server =? kInvalidSocket then io_ret None
  else
    do _ <- sys_setsockopt_reuseaddr server;
    do bound <- bind_localhost_port server callback_port;
    do failed <- (if negb bound then io_ret true
                  else do r <- sys_listen server 1; io_ret (negb (r =? 0)));
    if failed : bool then
      do _ <- close_socket server;
      io_ret None
    else
      do client <- sys_accept server;
      if client =? kInvalidSocket then
        do _ <- close_socket server;
        io_ret None
      else
        do rd <- sys_recv client 4095;
        let '(read_bytes, data) := rd in
        let buffer := data ++ replicate (4096 - length data) "000"%char in
        do code <- lift (parse_request read_bytes buffer);
        do _ <- sys_send client response;
        do _ <- close_socket client;
        do _ <- close_socket server;
        io_ret code.

(** The world before a member function runs. *)
Definition start (n : net) : world := World n 0 [].

(** ** Reference definitions

    The definitions of this module are written from the specification and the
    standards it names (FIPS 180-4 for SHA-256, RFC 4648 for base64url), not
    from the source; the theorems below compare the source with them. *)

Module Standard.

(** [n] bytes of [v], most significant first. *)
Definition be_bytes (n : nat) (v : Z) : list Z :=
  map (fun i => (v / 256 ^ Z.of_nat i) mod 256) (rev (seq 0 n)).

(** The number a byte sequence denotes, most significant byte first. *)
Definition be_value (bs : list Z) : Z :=
  fold_left (fun acc b => acc * 256 + b) bs 0.

(** [l] split into consecutive pieces of [n] elements. *)
Definition pieces {A} (n : nat) (l : list A) : list (list A) :=
  map (fun k => take n (drop (k * n) l)) (seq 0 (length l / n)).

(** *** Constants: square and cube roots of the first primes *)

Definition is_prime (n : nat) : bool :=
  (2 <=? n)%nat && forallb (fun d => negb (n mod d =? 0)%nat) (seq 2 (n - 2)).

Definition first_primes (n : nat) : list nat :=
  take n (List.filter is_prime (seq 0 320)).

(** The integer cube root, one bit at a time from the top. *)
Definition cube_root (n : Z) : Z :=
  fold_left (fun r i => if (r + 2 ^ i) ^ 3 <=? n then r + 2 ^ i else r)
            (map Z.of_nat (rev (seq 0 40))) 0.

(** The first 32 bits of the fractional part of a root. *)
Definition frac32_sqrt (p : nat) : Z := Z.sqrt (Z.of_nat p * 2 ^ 64) mod 2 ^ 32.
Definition frac32_cbrt (p : nat) : Z := cube_root (Z.of_nat p * 2 ^ 96) mod 2 ^ 32.

Definition K : list Z := map frac32_cbrt (first_primes 64).
Definition H0 : list Z := map frac32_sqrt (first_primes 8).

(** *** Functions on 32-bit words *)

Definition word (x : Z) : Z := x mod 2 ^ 32.
Definition ROTR (n x : Z) : Z := Z.lor (x ≫ n) (word (x ≪ (32 - n))).
Definition SHR (n x : Z) : Z := x ≫ n.
Definition Ch (x y z : Z) : Z := Z.lxor (Z.land x y) (Z.land (word (Z.lnot x)) z).
Definition Maj (x y z : Z) : Z := Z.lxor (Z.lxor (Z.land x y) (Z.land x z)) (Z.land y z).
Definition Sigma0 (x : Z) : Z := Z.lxor (Z.lxor (ROTR 2 x) (ROTR 13 x)) (ROTR 22 x).
Definition Sigma1 (x : Z) : Z := Z.lxor (Z.lxor (ROTR 6 x) (ROTR 11 x)) (ROTR 25 x).
Definition sigma0 (x : Z) : Z := Z.lxor (Z.lxor (ROTR 7 x) (ROTR 18 x)) (SHR 3 x).
Definition sigma1 (x : Z) : Z := Z.lxor (Z.lxor (ROTR 17 x) (ROTR 19 x)) (SHR 10 x).

(** *** Padding: [0x80], then [k] zero bytes with [len + 1 + k ≡ 56 (mod 64)],
    then the bit length in eight bytes. *)

Definition zero_bytes (len : nat) : nat := Z.to_nat ((55 - Z.of_nat len) mod 64).

Definition pad (msg : list Z) : list Z :=
  msg ++ [0x80] ++ replicate (zero_bytes (length msg)) 0
      ++ be_bytes 8 (8 * Z.of_nat (length msg)).

(** *** The message schedule *)

Definition next_word (W : list Z) : Z :=
  let t := length W in
  word (sigma1 (W !!! (t - 2)%nat) + W !!! (t - 7)%nat
        + sigma0 (W !!! (t - 15)%nat) + W !!! (t - 16)%nat).

Fixpoint extend (n : nat) (W : list Z) : list Z :=
  match n with
  | O => W
  | S n' => extend n' (W ++ [next_word W])
  end.

Definition schedule (block : list Z) : list Z :=
  extend 48 (map be_value (pieces 4 block)).

(** *** The compression function *)

Definition step (v : vars) (kw : Z * Z) : vars :=
  let '(Vars a b c d e f g h) := v in
  let T1 := word (h + Sigma1 e + Ch e f g + kw.1 + kw.2) in
  let T2 := word (Sigma0 a + Maj a b c) in
  Vars (word (T1 + T2)) a b c (word (d + T1)) e f g.

Definition add_vars (x y : vars) : vars :=
  Vars (word (va x + va y)) (word (vb x + vb y)) (word (vc x + vc y))
       (word (vd x + vd y)) (word (ve x + ve y)) (word (vf x + vf y))
       (word (vg x + vg y)) (word (vhh x + vhh y)).

Definition compress (H : vars) (block : list Z) : vars :=
  add_vars H (fold_left step (zip K (schedule block)) H).

Definition words (v : vars) : list Z :=
  [va v; vb v; vc v; vd v; ve v; vf v; vg v; vhh v].

Definition initial : vars :=
  Vars (H0 !!! 0%nat) (H0 !!! 1%nat) (H0 !!! 2%nat) (H0 !!! 3%nat)
       (H0 !!! 4%nat) (H0 !!! 5%nat) (H0 !!! 6%nat) (H0 !!! 7%nat).

Definition SHA256 (msg : list Z) : list Z :=
  concat (map (be_bytes 4) (words (fold_left compress (pieces 64 (pad msg)) initial))).

(** *** base64url without padding *)

Definition base64_alphabet : list ascii :=
  str "ABCDEFGHIJKLMNOPQRSTUVWXYZabcdefghijklmnopqrstuvwxyz0123456789+/".

Definition url_safe (c : ascii) : ascii :=
  if Ascii.eqb c "+" then "-"%char else if Ascii.eqb c "/" then "_"%char else c.

Definition base64url_alphabet : list ascii := map url_safe base64_alphabet.

Definition symbol (v : Z) : ascii := nth (Z.to_nat v) base64url_alphabet "="%char.

(** [n] six-bit groups of [v], most significant first. *)
Definition sextets (n : nat) (v : Z) : list Z :=
  map (fun i => (v / 64 ^ Z.of_nat i) mod 64) (rev (seq 0 n)).

(** Three bytes make four symbols; a final single byte is extended with
    four zero bits to two symbols, a final pair of bytes with two zero bits
    to three symbols. *)
Fixpoint base64url (data : list Z) : list ascii :=
  match data with
  | b0 :: b1 :: b2 :: rest =>
      map symbol (sextets 4 (be_value [b0; b1; b2])) ++ base64url rest
  | [b0; b1] => map symbol (sextets 3 (be_value [b0; b1] * 2 ^ 2))
  | [b0] => map symbol (sextets 2 (b0 * 2 ^ 4))
  | [] => []
  end.

(** *** Query strings *)

(** [s] cut at every [sep]. *)
Fixpoint split_on (sep : ascii) (s : list ascii) : list (list ascii) :=
  match s with
  | [] => [[]]
  | c :: s' =>
      if Ascii.eqb c sep then [] :: split_on sep s'
      else match split_on sep s' with
           | seg :: segs => (c :: seg) :: segs
           | [] => [[c]]
           end
  end.

Fixpoint join (sep : ascii) (segs : list (list ascii)) : list ascii :=
  match segs with
  | [] => []
  | [seg] => seg
  | seg :: segs' => seg ++ sep :: join sep segs'
  end.

(** A segment [code=value] with a value that is not empty. *)
Definition is_code_param (seg : list ascii) : bool :=
  starts_with (str "code=") seg && (5 <? length seg)%nat.

(** A segment whose key is [code], whatever its value. *)
Definition has_code_key (seg : list ascii) : bool := starts_with (str "code=") seg.

Definition is_alnum (c : ascii) : bool :=
  between "A" "Z" (uchar c) || between "a" "z" (uchar c) || between "0" "9" (uchar c).

(** The percent-decoded value of the first segment that [select]s. *)
Definition first_code (select : list ascii → bool) (segs : list (list ascii))
  : result (option (list ascii)) :=
  match List.find select segs with
  | Some seg => decoded ← url_decode (drop 5 seg); Ok (Some decoded)
  | None => Ok None
  end.

(** What a percent-encoded value is made of: the characters that pass
    unchanged, and the [%XX] escapes. *)
Definition is_encoded_char (c : ascii) : bool :=
  unreserved (uchar c) || Ascii.eqb c "%".

(** One [key=value] parameter, the value percent-encoded. *)
Definition param (kv : string * list ascii) : list ascii :=
  str kv.1 ++ "="%char :: url_encode kv.2.

(** The parameters of the authorization request, in their fixed order. *)
Definition authorization_params (device nonce code_challenge idp : list ascii) (port : Z)
  : list (string * list ascii) :=
  [ ("response_type"%string, str "code");
    ("device_id"%string, device);
    ("scope"%string, str "openid consent email tk_client age");
    ("client_id"%string, str "ZU7sPN-miLujMD95LfOQ453IB0AtjM8sMyvgJ9wCXEQ");
    ("redirect_uri"%string, str "http://localhost:" ++ to_string port);
    ("ui_locales"%string, str "en_US");
    ("nonce"%string, nonce);
    ("prompt"%string, str "select_account");
    ("code_challenge"%string, code_challenge);
    ("code_challenge_method"%string, str "S256");
    ("idp_id"%string, idp) ].

Definition authorization_endpoint : list ascii := str "https://login.nvidia.com/authorize?".

(** The value of the parameter [key] in a query string, still encoded. *)
Definition query_param (key : string) (query : list ascii) : option (list ascii) :=
  match List.find (starts_with (str key ++ ["="%char])) (split_on "&" query) with
  | Some seg => Some (drop (length (str key) + 1) seg)
  | None => None
  end.

(** *** Probing ports *)

(** The candidate tried at the [calls]-th call of [socket] can be bound: the
    probe socket exists and [bind] accepts the port. *)
Definition available (n : net) (calls : nat) (port : Z) : bool :=
  negb (socket_ret n calls =? kInvalidSocket) && (bind_ret n port =? 0).

(** What probing one candidate leaves in the log: the socket is closed
    right after the attempt to bind it. *)
Definition probe_events (n : net) (calls : nat) (port : Z) : list event :=
  let s := socket_ret n calls in
  if s =? kInvalidSocket then [EvSocket s] else [EvSocket s; EvBind s port; EvClose s].

Fixpoint probes_log (n : net) (calls : nat) (ports : list Z) : list event :=
  match ports with
  | [] => []
  | port :: rest => probe_events n calls port ++ probes_log n (S calls) rest
  end.

(** *** The callback exchange *)

(** The log of an exchange in which a client connected: the response goes
    out after the request was read, then both sockets are closed. *)
Definition served_log (server client : socket_t) (port : Z) : list event :=
  [ EvSocket server; EvSetReuseAddr server; EvBind server port; EvListen server 1;
    EvAccept server; EvRecv client 4095; EvSend client response;
    EvClose client; EvClose server ].

(** The log when [accept] failed: there is no client to answer or close. *)
Definition refused_log (server : socket_t) (port : Z) : list event :=
  [ EvSocket server; EvSetReuseAddr server; EvBind server port; EvListen server 1;
    EvAccept server; EvClose server ].

(** The request text the parser sees: at most 4095 bytes of what arrived, up
    to the first NUL; nothing when [recv] failed or the peer sent nothing. *)
Definition request (n : net) : option (list ascii) :=
  match recv_ret n with
  | Some data => if bool_decide (take 4095 data = []) then None
                 else Some (c_string (take 4095 data))
  | None => None
  end.

End Standard.

(** ** Callers: namespace opennow::core (app.cpp) and the smoke test *)

(** [std::optional::value_or] *)
Definition value_or {A} (o : option A) (fallback : A) : A :=
  match o with
  | Some a => a
  | None => fallback
  end.

Definition banner : list ascii := str "OpenNOW Rewrite bootstrap is running.".

(** [App::login_bootstrap_preview] (app.cpp, lines 13-24).  The generator
    and the clock are the inputs that [make_pkce_challenge] and
    [generate_nonce] read. *)
Definition login_bootstrap_preview {rng} (dist : Z → Z → rng → Z * rng) (now : Z) (g : rng)
  : io (list ascii * rng) :=
  let '(pkce, g') := make_pkce_challenge dist g in
  do picked <- pick_callback_port;
  let port := value_or picked 2259 in
  let url := build_auth_url now pkce port nvidia_default in
  do prefix <- lift (substr url 0 (Some 72%nat));
  io_ret (str "Login base initialized (provider=NVIDIA, callback_port=" ++ to_string port
            ++ str ", auth_url_prefix=" ++ prefix ++ str "...)",
          g').

(** [main] of tests/login_smoke.cpp: the exit status and the line written. *)
Definition login_smoke_main {rng} (dist : Z → Z → rng → Z * rng) (now : Z) (g : rng)
  : io (Z * list ascii) :=
  let '(pkce, _) := make_pkce_challenge dist g in
  if (length (verifier pkce) <? 43)%nat || (length (challenge pkce) <? 43)%nat then
    io_ret (1, str "pkce generation failed")
  else if bool_decide (find_char "=" (challenge pkce) ≠ None) then
    io_ret (1, str "pkce challenge must be base64url without padding")
  else
    let url := build_auth_url now pkce 2259 nvidia_default in
    if bool_decide (find_str (str "https://login.nvidia.com/authorize") url ≠ Some O) then
      io_ret (1, str "unexpected auth url: " ++ url)
    else if bool_decide (find_str (str "code_challenge_method=S256") url = None) then
      io_ret (1, str "missing S256 marker")
    else
      do code <- lift (extract_code_from_callback_target
                         (str "/?code=abc123%2Ffoo%2Bbar&state=foo"));
      if negb (bool_decide (code = Some (str "abc123/foo+bar"))) then
        io_ret (1, str "code extraction failed")
      else
        do port <- pick_callback_port;
        if bool_decide (port = None) then
          io_ret (1, str "callback port selection failed")
        else
          io_ret (0, str "login_smoke ok").
(** * Proofs *)

(** ** Machine arithmetic *)

Lemma lor_disjoint (hi lo k : Z) :
  0 ≤ k → 0 ≤ lo < 2 ^ k → Z.lor (hi * 2 ^ k) lo = hi * 2 ^ k + lo.
Proof.
  intros Hk Hlo. symmetry. apply Z.add_nocarry_lor.
  apply Z.bits_inj'. intros n Hn.
  rewrite Z.land_spec, Z.bits_0.
  destruct (Z.lt_ge_cases n k) as [Hlt | Hge].
  - by rewrite Z.mul_pow2_bits_low.
  - rewrite (proj1 (Z.bounded_iff_bits_nonneg' k lo Hk (proj1 Hlo)) Hlo n Hge).
    apply andb_false_r.
Qed.

Lemma byte_of_shift (x k : Z) :
  0 ≤ k → u8 (Z.land (x ≫ k) 0xff) = (x / 2 ^ k) mod 256.
Proof.
  intros Hk. change 0xff with (Z.ones 8).
  rewrite Z.land_ones, Z.shiftr_div_pow2 by lia.
  unfold u8. by rewrite Z.mod_mod.
Qed.

Lemma byte_of_low (x : Z) : u8 (Z.land x 0xff) = (x / 2 ^ 0) mod 256.
Proof. rewrite <- (Z.shiftr_0_r x) at 1. by apply byte_of_shift. Qed.

Lemma add32_word (a b : Z) : add32 a b = Standard.word (a + b).
Proof. reflexivity. Qed.

Lemma word_add_l (a b : Z) : Standard.word (Standard.word a + b) = Standard.word (a + b).
Proof. unfold Standard.word. by rewrite Zplus_mod_idemp_l. Qed.

Lemma word_add_r (a b : Z) : Standard.word (a + Standard.word b) = Standard.word (a + b).
Proof. unfold Standard.word. by rewrite Zplus_mod_idemp_r. Qed.

Lemma add32_3 (a b c : Z) : add32 (add32 a b) c = Standard.word (a + b + c).
Proof. by rewrite !add32_word, word_add_l. Qed.

Lemma add32_4 (a b c d : Z) :
  add32 (add32 (add32 a b) c) d = Standard.word (a + b + c + d).
Proof. by rewrite (add32_word _ d), add32_3, word_add_l. Qed.

Lemma add32_5 (a b c d e : Z) :
  add32 (add32 (add32 (add32 a b) c) d) e = Standard.word (a + b + c + d + e).
Proof. by rewrite (add32_word _ e), add32_4, word_add_l. Qed.

Lemma rotr_ROTR (x n : Z) : rotr x n = Standard.ROTR n x.
Proof. reflexivity. Qed.

Lemma load_word (b0 b1 b2 b3 : Z) :
  is_byte b0 → is_byte b1 → is_byte b2 → is_byte b3 →
  Z.lor (Z.lor (Z.lor (shl32 b0 24) (shl32 b1 16)) (shl32 b2 8)) b3
  = Standard.be_value [b0; b1; b2; b3].
Proof.
  unfold is_byte, shl32, u32. intros H0 H1 H2 H3.
  rewrite !Z.shiftl_mul_pow2 by lia.
  rewrite !Z.mod_small by lia.
  rewrite (lor_disjoint b0 (b1 * 2 ^ 16) 24) by lia.
  replace (b0 * 2 ^ 24 + b1 * 2 ^ 16) with ((b0 * 2 ^ 8 + b1) * 2 ^ 16) by lia.
  rewrite (lor_disjoint _ (b2 * 2 ^ 8) 16) by lia.
  replace ((b0 * 2 ^ 8 + b1) * 2 ^ 16 + b2 * 2 ^ 8)
    with (((b0 * 2 ^ 8 + b1) * 2 ^ 8 + b2) * 2 ^ 8) by lia.
  rewrite (lor_disjoint _ b3 8) by lia.
  unfold Standard.be_value. cbn [fold_left]. lia.
Qed.

(** ** SHA-256: the padding *)

Lemma pad_zeros_spec (fuel : nat) (msg : list Z) :
  (Z.to_nat ((56 - Z.of_nat (length msg)) mod 64) < fuel)%nat →
  pad_zeros fuel msg
  = msg ++ replicate (Z.to_nat ((56 - Z.of_nat (length msg)) mod 64)) 0.
Proof.
  revert msg. induction fuel as [| fuel IH]; intros msg Hfuel; [lia |].
  cbn [pad_zeros].
  destruct (Z.eqb_spec (Z.of_nat (length msg) mod 64) 56) as [Heq | Hne]; cbn [negb].
  - replace ((56 - Z.of_nat (length msg)) mod 64) with 0
      by (Z.div_mod_to_equations; lia).
    by rewrite app_nil_r.
  - assert (Hk : (56 - Z.of_nat (length (msg ++ [0]))) mod 64
                 = (56 - Z.of_nat (length msg)) mod 64 - 1).
    { rewrite length_app. cbn [length]. Z.div_mod_to_equations. lia. }
    rewrite IH by (rewrite Hk; Z.div_mod_to_equations; lia).
    rewrite Hk, <- app_assoc. f_equal.
    replace (Z.to_nat ((56 - Z.of_nat (length msg)) mod 64))
      with (S (Z.to_nat ((56 - Z.of_nat (length msg)) mod 64 - 1)))
      by (Z.div_mod_to_equations; lia).
    reflexivity.
Qed.

Lemma fold_left_push {A B} (f : B → A) (l : list B) (acc : list A) :
  fold_left (fun acc i => acc ++ [f i]) l acc = acc ++ map f l.
Proof.
  revert acc. induction l as [| x l IH]; intros acc; cbn [fold_left map].
  - by rewrite app_nil_r.
  - by rewrite IH, <- app_assoc.
Qed.

Lemma length_byte (n i : Z) :
  0 ≤ i ≤ 7 → u8 (Z.land (u64 n ≫ (i * 8)) 0xff) = (n / 256 ^ i) mod 256.
Proof.
  intros Hi. rewrite byte_of_shift by lia. unfold u64.
  assert (Hc : i = 0 ∨ i = 1 ∨ i = 2 ∨ i = 3 ∨ i = 4 ∨ i = 5 ∨ i = 6 ∨ i = 7) by lia.
  destruct Hc as [-> | [-> | [-> | [-> | [-> | [-> | [-> | ->]]]]]]];
    cbn; Z.div_mod_to_equations; lia.
Qed.

Lemma sha256_padded_spec (input : list ascii) :
  sha256_padded input = Standard.pad (map uchar input).
Proof.
  unfold sha256_padded, Standard.pad.
  rewrite fold_left_push, pad_zeros_spec.
  - rewrite length_app. cbn [length].
    rewrite <- !app_assoc. do 2 f_equal.
    f_equal.
    + unfold Standard.zero_bytes. do 3 f_equal. lia.
    + unfold Standard.be_bytes. cbn [seq rev app map].
      rewrite !length_byte by lia. by rewrite (Z.mul_comm _ 8).
  - assert (0 ≤ (56 - Z.of_nat (length (map uchar input ++ [128]))) mod 64 < 64)
      by (apply Z.mod_pos_bound; lia).
    lia.
Qed.

(** ** SHA-256: one block *)

Lemma fold_insert_seq (f : nat → Z) (n : nat) (w : list Z) :
  (n ≤ length w)%nat →
  fold_left (fun w i => <[ i := f i ]> w) (seq 0 n) w = map f (seq 0 n) ++ drop n w.
Proof.
  induction n as [| n IH]; intros Hn; [done |].
  rewrite seq_S, fold_left_app, IH by lia. cbn [fold_left Nat.add].
  destruct (lookup_lt_is_Some_2 w n) as [x Hx]; [lia |].
  rewrite (drop_S _ _ _ Hx).
  rewrite insert_app_r_alt by (rewrite length_map, length_seq; lia).
  rewrite length_map, length_seq, Nat.sub_diag. cbn [insert list_insert].
  rewrite map_app, <- app_assoc. reflexivity.
Qed.

Lemma take4_drop (l : list Z) (k : nat) :
  (k + 4 ≤ length l)%nat →
  take 4 (drop k l) = [l !!! k; l !!! (k + 1)%nat; l !!! (k + 2)%nat; l !!! (k + 3)%nat].
Proof.
  intros Hk.
  destruct (lookup_lt_is_Some_2 l k) as [x0 H0]; [lia |].
  destruct (lookup_lt_is_Some_2 l (k + 1)) as [x1 H1]; [lia |].
  destruct (lookup_lt_is_Some_2 l (k + 2)) as [x2 H2]; [lia |].
  destruct (lookup_lt_is_Some_2 l (k + 3)) as [x3 H3]; [lia |].
  rewrite (list_lookup_total_correct _ _ _ H0), (list_lookup_total_correct _ _ _ H1),
    (list_lookup_total_correct _ _ _ H2), (list_lookup_total_correct _ _ _ H3).
  rewrite (drop_S _ _ _ H0).
  replace (S k) with (k + 1)%nat by lia. rewrite (drop_S _ _ _ H1).
  replace (S (k + 1)) with (k + 2)%nat by lia. rewrite (drop_S _ _ _ H2).
  replace (S (k + 2)) with (k + 3)%nat by lia. rewrite (drop_S _ _ _ H3).
  reflexivity.
Qed.

Lemma lookup_total_middle (pre b rest : list Z) (j : nat) :
  (j < length b)%nat → (pre ++ b ++ rest) !!! (length pre + j)%nat = b !!! j.
Proof.
  intros Hj. rewrite lookup_total_app_r by lia.
  replace (length pre + j - length pre)%nat with j by lia.
  by rewrite lookup_total_app_l.
Qed.

Lemma Forall_lookup_total_byte (b : list Z) (j : nat) :
  Forall is_byte b → (j < length b)%nat → is_byte (b !!! j).
Proof.
  intros Hb Hj. destruct (lookup_lt_is_Some_2 b j Hj) as [x Hx].
  rewrite (list_lookup_total_correct _ _ _ Hx).
  by eapply Forall_lookup_1.
Qed.

Lemma w_load_spec (pre b rest : list Z) :
  length b = 64%nat → Forall is_byte b →
  w_load (pre ++ b ++ rest) (length pre) (replicate 64 0)
  = map Standard.be_value (Standard.pieces 4 b) ++ replicate 48 0.
Proof.
  intros Hlen Hb. unfold w_load.
  rewrite (fold_insert_seq
             (fun i => Z.lor (Z.lor (Z.lor
                (shl32 ((pre ++ b ++ rest) !!! (length pre + i * 4)%nat) 24)
                (shl32 ((pre ++ b ++ rest) !!! (length pre + i * 4 + 1)%nat) 16))
                (shl32 ((pre ++ b ++ rest) !!! (length pre + i * 4 + 2)%nat) 8))
                ((pre ++ b ++ rest) !!! (length pre + i * 4 + 3)%nat)))
    by (rewrite length_replicate; lia).
  f_equal. unfold Standard.pieces. rewrite Hlen.
  change (64 / 4)%nat with 16%nat. rewrite map_map.
  apply map_ext_in. intros i Hi. apply in_seq in Hi.
  rewrite take4_drop by lia.
  rewrite <- !Nat.add_assoc, !lookup_total_middle by lia.
  rewrite ?Nat.add_0_r.
  apply load_word; apply Forall_lookup_total_byte; auto; lia.
Qed.

Lemma schedule_word (w16 w15 w7 w2 : Z) :
  add32 (add32 (add32 w16
                      (Z.lxor (Z.lxor (rotr w15 7) (rotr w15 18)) (w15 ≫ 3)))
               w7)
        (Z.lxor (Z.lxor (rotr w2 17) (rotr w2 19)) (w2 ≫ 10))
  = Standard.word (Standard.sigma1 w2 + w7 + Standard.sigma0 w15 + w16).
Proof.
  rewrite add32_4, !rotr_ROTR.
  unfold Standard.sigma0, Standard.sigma1, Standard.SHR. apply (f_equal Standard.word). lia.
Qed.

Lemma w_extend_gen (n : nat) (W rest : list Z) :
  (16 ≤ length W)%nat → (n ≤ length rest)%nat →
  fold_left (fun w i =>
               let s0 := Z.lxor (Z.lxor (rotr (w !!! (i - 15)%nat) 7)
                                        (rotr (w !!! (i - 15)%nat) 18))
                                (w !!! (i - 15)%nat ≫ 3) in
               let s1 := Z.lxor (Z.lxor (rotr (w !!! (i - 2)%nat) 17)
                                        (rotr (w !!! (i - 2)%nat) 19))
                                (w !!! (i - 2)%nat ≫ 10) in
               <[ i := add32 (add32 (add32 (w !!! (i - 16)%nat) s0)
                                    (w !!! (i - 7)%nat)) s1 ]> w)
            (seq (length W) n) (W ++ rest)
  = Standard.extend n W ++ drop n rest.
Proof.
  revert W rest. induction n as [| n IH]; intros W rest HW Hn; [done |].
  destruct rest as [| r rest]; [cbn in Hn; lia |].
  cbn [seq fold_left Standard.extend drop].
  cbv zeta. rewrite schedule_word.
  rewrite !lookup_total_app_l by lia.
  rewrite insert_app_r_alt by lia. rewrite Nat.sub_diag. cbn [insert list_insert].
  replace (W ++ Standard.word
             (Standard.sigma1 (W !!! (length W - 2)%nat) + W !!! (length W - 7)%nat
              + Standard.sigma0 (W !!! (length W - 15)%nat) + W !!! (length W - 16)%nat)
             :: rest)
    with ((W ++ [Standard.next_word W]) ++ rest) by (by rewrite <- app_assoc).
  replace (S (length W)) with (length (W ++ [Standard.next_word W]))
    by (rewrite length_app; cbn; lia).
  apply IH; [rewrite length_app; cbn; lia | cbn in Hn; lia].
Qed.

Lemma w_extend_spec (M : list Z) :
  length M = 16%nat → w_extend (M ++ replicate 48 0) = Standard.extend 48 M.
Proof.
  intros HM. unfold w_extend.
  change 16%nat with (length M) at 1 || rewrite <- HM at 1.
  rewrite w_extend_gen by (rewrite ?length_replicate; lia).
  change (drop 48 (replicate 48 0)) with (@nil Z). by rewrite app_nil_r.
Qed.

Lemma K_table : Standard.K = kTable.
Proof. by vm_compute. Qed.

Lemma initial_words : h_init = Standard.words Standard.initial.
Proof. by vm_compute. Qed.

Lemma round_step (w : list Z) (v : vars) (i : nat) :
  round w v i = Standard.step v (kTable !!! i, w !!! i).
Proof.
  destruct v as [a b c d e f g hh]. unfold round, Standard.step. cbn [fst snd].
  rewrite (add32_5 hh), !add32_word, !rotr_ROTR.
  unfold Standard.Sigma0, Standard.Sigma1, Standard.Ch, Standard.Maj, not32, u32,
    Standard.word.
  reflexivity.
Qed.

Lemma fold_round_gen (K' W' preK preW : list Z) (v : vars) :
  length preK = length preW → length K' = length W' → kTable = preK ++ K' →
  fold_left (round (preW ++ W')) (seq (length preK) (length K')) v
  = fold_left Standard.step (zip K' W') v.
Proof.
  revert W' preK preW v.
  induction K' as [| k K' IH]; intros [| x W'] preK preW v Hpre Hlen HK;
    try discriminate; [done |].
  cbn [length seq fold_left zip zip_with].
  rewrite round_step, HK.
  rewrite Hpre at 2.
  rewrite !list_lookup_total_middle by done.
  replace (preW ++ x :: W') with ((preW ++ [x]) ++ W') by (by rewrite <- app_assoc).
  replace (S (length preK)) with (length (preK ++ [k]))
    by (rewrite length_app; cbn; lia).
  apply IH.
  - rewrite !length_app. cbn. lia.
  - cbn in Hlen. lia.
  - by rewrite <- app_assoc.
Qed.

Lemma fold_round (W : list Z) (v : vars) :
  length W = 64%nat →
  fold_left (round W) (seq 0 64) v = fold_left Standard.step (zip Standard.K W) v.
Proof.
  intros HW. rewrite K_table.
  apply (fold_round_gen kTable W [] [] v); done.
Qed.

Lemma length_pieces {A} (n : nat) (l : list A) :
  length (Standard.pieces n l) = (length l / n)%nat.
Proof. unfold Standard.pieces. by rewrite length_map, length_seq. Qed.

Lemma length_extend (n : nat) (W : list Z) :
  length (Standard.extend n W) = (length W + n)%nat.
Proof.
  revert W. induction n as [| n IH]; intros W; cbn [Standard.extend]; [lia |].
  rewrite IH, length_app. cbn. lia.
Qed.

Lemma process_block_spec (pre b rest : list Z) (H : vars) :
  length b = 64%nat → Forall is_byte b →
  process_block (pre ++ b ++ rest) (length pre) (Standard.words H)
  = Standard.words (Standard.compress H b).
Proof.
  intros Hlen Hb. unfold process_block.
  assert (HM : length (map Standard.be_value (Standard.pieces 4 b)) = 16%nat)
    by (by rewrite length_map, length_pieces, Hlen).
  rewrite w_load_spec, w_extend_spec by done.
  unfold Standard.compress, Standard.schedule.
  destruct H as [h0 h1 h2 h3 h4 h5 h6 h7].
  change (Standard.words (Vars h0 h1 h2 h3 h4 h5 h6 h7))
    with [h0; h1; h2; h3; h4; h5; h6; h7].
  cbn [lookup_total list_lookup_total].
  rewrite fold_round by (rewrite length_extend; lia).
  destruct (fold_left Standard.step _ _) as [a b' c d e f g hh].
  reflexivity.
Qed.

(** ** SHA-256: the block loop *)

Lemma pieces_cons {A} (n : nat) (b rest : list A) :
  (0 < n)%nat → length b = n →
  Standard.pieces n (b ++ rest) = b :: Standard.pieces n rest.
Proof.
  intros Hn Hb. unfold Standard.pieces.
  rewrite length_app, Hb.
  replace ((n + length rest) / n)%nat with (S (length rest / n)).
  2:{ replace (n + length rest)%nat with (length rest + 1 * n)%nat by lia.
      rewrite Nat.div_add by lia. lia. }
  cbn [seq map]. f_equal.
  - change (0 * n)%nat with 0%nat. rewrite drop_0. by apply take_app_length'.
  - rewrite <- seq_shift, map_map. apply map_ext. intros k.
    f_equal. replace (S k * n)%nat with (length b + k * n)%nat by lia.
    by rewrite drop_app_add.
Qed.

Lemma pieces_concat {A} (n k : nat) (l : list A) :
  (0 < n)%nat → length l = (k * n)%nat →
  concat (Standard.pieces n l) = l ∧ Forall (fun b => length b = n) (Standard.pieces n l).
Proof.
  intros Hn. revert l. induction k as [| k IH]; intros l Hl.
  - destruct l; [| discriminate].
    unfold Standard.pieces. cbn [length]. rewrite Nat.Div0.div_0_l. done.
  - rewrite <- (take_drop n l).
    assert (Ht : length (take n l) = n) by (rewrite length_take; lia).
    rewrite pieces_cons by done.
    destruct (IH (drop n l)) as [IH1 IH2]; [rewrite length_drop; lia |].
    split.
    + cbn [concat]. by rewrite IH1.
    + by constructor.
Qed.

Lemma block_loop_spec (blocks pre : list (list Z)) (fuel : nat) (H : vars) :
  Forall (fun b => length b = 64%nat ∧ Forall is_byte b) blocks →
  (length blocks ≤ fuel)%nat →
  block_loop fuel (concat pre ++ concat blocks) (length (concat pre)) (Standard.words H)
  = Standard.words (fold_left Standard.compress blocks H).
Proof.
  revert pre fuel H. induction blocks as [| b blocks IH]; intros pre fuel H Hb Hfuel.
  - cbn [concat fold_left]. rewrite app_nil_r.
    destruct fuel; cbn [block_loop]; [done |].
    by rewrite Nat.ltb_irrefl.
  - destruct fuel as [| fuel]; [cbn in Hfuel; lia |].
    apply Forall_cons in Hb as [[Hlen Hbytes] Hb].
    cbn [block_loop concat fold_left].
    replace (length (concat pre) <? length (concat pre ++ b ++ concat blocks))%nat
      with true by (symmetry; apply Nat.ltb_lt; rewrite !length_app; lia).
    rewrite process_block_spec by done.
    replace (concat pre ++ b ++ concat blocks)
      with (concat (pre ++ [b]) ++ concat blocks)
      by (rewrite concat_app; cbn [concat]; by rewrite app_nil_r, <- app_assoc).
    replace (length (concat pre) + 64)%nat with (length (concat (pre ++ [b])))
      by (rewrite concat_app, length_app; cbn [concat]; rewrite app_nil_r; lia).
    apply IH; [done | cbn in Hfuel; lia].
Qed.

(** ** SHA-256: the digest bytes *)

Lemma sha256_output_spec (H : vars) :
  sha256_output (Standard.words H)
  = concat (map (Standard.be_bytes 4) (Standard.words H)).
Proof.
  destruct H as [h0 h1 h2 h3 h4 h5 h6 h7].
  unfold sha256_output, Standard.be_bytes.
  cbn [Standard.words seq fold_left replicate Nat.mul Nat.add
       insert list_insert lookup_total list_lookup_total map rev app concat
       va vb vc vd ve vf vg vhh].
  rewrite !byte_of_shift by lia.
  rewrite !byte_of_low.
  reflexivity.
Qed.

(** ** SHA-256: the whole function *)

Lemma uchar_byte (c : ascii) : is_byte (uchar c).
Proof.
  unfold is_byte, uchar. pose proof (N_ascii_bounded c). lia.
Qed.

Lemma be_bytes_byte (n : nat) (v : Z) : Forall is_byte (Standard.be_bytes n v).
Proof.
  unfold Standard.be_bytes. apply Forall_map, Forall_forall. intros i _.
  unfold is_byte. apply Z.mod_pos_bound. lia.
Qed.

Lemma pad_bytes (input : list ascii) : Forall is_byte (Standard.pad (map uchar input)).
Proof.
  unfold Standard.pad. repeat apply Forall_app_2.
  - apply Forall_map, Forall_forall. intros c _. apply uchar_byte.
  - repeat constructor; unfold is_byte; lia.
  - apply Forall_replicate. unfold is_byte. lia.
  - apply be_bytes_byte.
Qed.

Lemma zero_bytes_spec (len : nat) :
  (Z.of_nat len + 1 + Z.of_nat (Standard.zero_bytes len)) mod 64 = 56
  ∧ (Standard.zero_bytes len < 64)%nat.
Proof.
  unfold Standard.zero_bytes.
  pose proof (Z.mod_pos_bound (55 - Z.of_nat len) 64 eq_refl) as Hk.
  rewrite Z2Nat.id by lia. split; [| lia].
  Z.div_mod_to_equations. lia.
Qed.

Lemma length_be_bytes (n : nat) (v : Z) : length (Standard.be_bytes n v) = n.
Proof. unfold Standard.be_bytes. by rewrite length_map, length_rev, length_seq. Qed.

Lemma length_pad (msg : list Z) :
  ∃ k, length (Standard.pad msg) = (k * 64)%nat.
Proof.
  unfold Standard.pad.
  rewrite !length_app, length_replicate, length_be_bytes. cbn [length].
  destruct (zero_bytes_spec (length msg)) as [Hmod _].
  exists (Z.to_nat ((Z.of_nat (length msg) + 1
                     + Z.of_nat (Standard.zero_bytes (length msg)) + 8) / 64)).
  apply Nat2Z.inj. rewrite Nat2Z.inj_mul, Z2Nat.id by (Z.div_mod_to_equations; lia).
  rewrite !Nat2Z.inj_add. Z.div_mod_to_equations. lia.
Qed.

Lemma sha256_refines (input : list ascii) :
  sha256 input = Standard.SHA256 (map uchar input).
Proof.
  unfold sha256, Standard.SHA256.
  rewrite sha256_padded_spec, initial_words.
  pose proof (pad_bytes input) as Hbytes.
  destruct (length_pad (map uchar input)) as [k Hk].
  set (padded := Standard.pad (map uchar input)) in *.
  destruct (pieces_concat 64 k padded) as [Hcat Hlen]; [lia | done |].
  pose proof (block_loop_spec (Standard.pieces 64 padded) [] (length padded)
                Standard.initial) as Hloop.
  cbn [concat app length] in Hloop. rewrite Hcat in Hloop.
  rewrite Hloop.
  - apply sha256_output_spec.
  - rewrite <- Hcat in Hbytes. apply Forall_concat in Hbytes.
    apply Forall_forall. intros b Hb. split.
    + by eapply Forall_forall in Hlen.
    + by eapply Forall_forall in Hbytes.
  - rewrite length_pieces, Hk, Nat.div_mul by lia. lia.
Qed.

(** C1.  [sha256] is the standard SHA-256: the message is followed by a
    [0x80] byte, then by zero bytes up to a length of 56 modulo 64, then by
    its bit length as eight big-endian bytes; the padded message is a whole
    number of 64-byte blocks; the digest is the one the standard compression
    function, schedule and constants give on these blocks with 32-bit
    wrap-around addition; and the digest of the empty string is
    e3b0c442...7852b855. *)
Theorem sha256_standard (input : list ascii) :
  sha256_padded input
  = map uchar input ++ [0x80]
      ++ replicate (Standard.zero_bytes (length input)) 0
      ++ Standard.be_bytes 8 (8 * Z.of_nat (length input))
  ∧ (Z.of_nat (length input) + 1 + Z.of_nat (Standard.zero_bytes (length input))) mod 64 = 56
  ∧ (Standard.zero_bytes (length input) < 64)%nat
  ∧ Z.of_nat (length (sha256_padded input)) mod 64 = 0
  ∧ kTable = Standard.K
  ∧ h_init = Standard.H0
  ∧ sha256 input = Standard.SHA256 (map uchar input)
  ∧ to_hex (sha256 (str ""))
    = str "e3b0c44298fc1c149afbf4c8996fb92427ae41e4649b934ca495991b7852b855".
Proof.
  split; [| split; [| split; [| split; [| split; [| split; [| split]]]]]].
  - rewrite sha256_padded_spec. unfold Standard.pad. by rewrite length_map.
  - apply zero_bytes_spec.
  - apply zero_bytes_spec.
  - rewrite sha256_padded_spec. destruct (length_pad (map uchar input)) as [k ->].
    rewrite Nat2Z.inj_mul. apply Z_mod_mult.
  - by rewrite K_table.
  - by vm_compute.
  - apply sha256_refines.
  - by vm_compute.
Qed.

(** ** base64url *)

Lemma list_ind3 {A} (P : list A → Prop) :
  P [] → (∀ a, P [a]) → (∀ a b, P [a; b]) →
  (∀ a b c l, P l → P (a :: b :: c :: l)) →
  ∀ l, P l.
Proof.
  intros H0 H1 H2 H3 l.
  cut (P l ∧ (∀ a, P (a :: l)) ∧ (∀ a b, P (a :: b :: l))); [tauto |].
  induction l as [| x l (IHa & IHb & IHc)]; [auto |].
  repeat split; auto.
Qed.

Lemma alphabet_symbol (v : Z) : 0 ≤ v < 64 → alphabet_at v = Standard.symbol v.
Proof.
  intros Hv. unfold alphabet_at, Standard.symbol.
  change Standard.base64url_alphabet with alphabet.
  apply nth_indep. change (length alphabet) with 64%nat. lia.
Qed.

Lemma sextet_of_shift (x k : Z) : 0 ≤ k → Z.land (x ≫ k) 0x3f = (x / 2 ^ k) mod 64.
Proof.
  intros Hk. change 0x3f with (Z.ones 6).
  by rewrite Z.land_ones, Z.shiftr_div_pow2 by lia.
Qed.

Lemma sextet_low (x : Z) : Z.land x 0x3f = (x / 2 ^ 0) mod 64.
Proof. rewrite <- (Z.shiftr_0_r x) at 1. by apply sextet_of_shift. Qed.

Lemma load_chunk (b0 b1 b2 : Z) :
  is_byte b0 → is_byte b1 → is_byte b2 →
  Z.lor (Z.lor (shl32 b0 16) (shl32 b1 8)) b2 = Standard.be_value [b0; b1; b2].
Proof.
  unfold is_byte, shl32, u32. intros H0 H1 H2.
  rewrite !Z.shiftl_mul_pow2 by lia.
  rewrite !Z.mod_small by lia.
  rewrite (lor_disjoint b0 (b1 * 2 ^ 8) 16) by lia.
  replace (b0 * 2 ^ 16 + b1 * 2 ^ 8) with ((b0 * 2 ^ 8 + b1) * 2 ^ 8) by lia.
  rewrite (lor_disjoint _ b2 8) by lia.
  unfold Standard.be_value. cbn [fold_left]. lia.
Qed.

Lemma sextet_bound (v i : Z) : 0 ≤ (v / i) mod 64 < 64.
Proof. apply Z.mod_pos_bound. lia. Qed.

(** The four symbols of a full group. *)
Lemma group_symbols (b0 b1 b2 : Z) :
  is_byte b0 → is_byte b1 → is_byte b2 →
  let chunk := Z.lor (Z.lor (shl32 b0 16) (shl32 b1 8)) b2 in
  [alphabet_at (Z.land (chunk ≫ 18) 0x3f); alphabet_at (Z.land (chunk ≫ 12) 0x3f);
   alphabet_at (Z.land (chunk ≫ 6) 0x3f); alphabet_at (Z.land chunk 0x3f)]
  = map Standard.symbol (Standard.sextets 4 (Standard.be_value [b0; b1; b2])).
Proof.
  intros H0 H1 H2 chunk. subst chunk. rewrite load_chunk by done.
  rewrite !sextet_of_shift, sextet_low by lia.
  rewrite !alphabet_symbol by apply sextet_bound.
  reflexivity.
Qed.

(** The two symbols of a final single byte. *)
Lemma tail1_symbols (b0 : Z) :
  is_byte b0 →
  [alphabet_at (Z.land (b0 ≫ 2) 0x3f); alphabet_at (shl32 (Z.land b0 0x03) 4)]
  = map Standard.symbol (Standard.sextets 2 (b0 * 2 ^ 4)).
Proof.
  unfold is_byte. intros H0.
  unfold Standard.sextets. cbn [seq rev app map].
  change (64 ^ Z.of_nat 1) with 64. change (64 ^ Z.of_nat 0) with 1.
  assert (E1 : Z.land (b0 ≫ 2) 0x3f = (b0 * 2 ^ 4 / 64) mod 64).
  { rewrite sextet_of_shift by lia. Z.div_mod_to_equations. lia. }
  assert (E2 : shl32 (Z.land b0 0x03) 4 = (b0 * 2 ^ 4 / 1) mod 64).
  { unfold shl32, u32. change 0x03 with (Z.ones 2).
    rewrite Z.land_ones, Z.shiftl_mul_pow2 by lia.
    Z.div_mod_to_equations. lia. }
  rewrite E1, E2, !alphabet_symbol by apply sextet_bound. reflexivity.
Qed.

(** The three symbols of a final pair of bytes. *)
Lemma tail2_symbols (b0 b1 : Z) :
  is_byte b0 → is_byte b1 →
  [alphabet_at (Z.land (b0 ≫ 2) 0x3f);
   alphabet_at (Z.lor (shl32 (Z.land b0 0x03) 4) (Z.land (b1 ≫ 4) 0x0f));
   alphabet_at (shl32 (Z.land b1 0x0f) 2)]
  = map Standard.symbol (Standard.sextets 3 (Standard.be_value [b0; b1] * 2 ^ 2)).
Proof.
  unfold is_byte. intros H0 H1.
  unfold Standard.sextets, Standard.be_value. cbn [seq rev app map fold_left].
  change (64 ^ Z.of_nat 2) with 4096. change (64 ^ Z.of_nat 1) with 64.
  change (64 ^ Z.of_nat 0) with 1.
  assert (E1 : Z.land (b0 ≫ 2) 0x3f = ((0 * 256 + b0) * 256 + b1) * 2 ^ 2 / 4096 mod 64).
  { rewrite sextet_of_shift by lia. Z.div_mod_to_equations. lia. }
  assert (E2 : Z.lor (shl32 (Z.land b0 0x03) 4) (Z.land (b1 ≫ 4) 0x0f)
               = ((0 * 256 + b0) * 256 + b1) * 2 ^ 2 / 64 mod 64).
  { unfold shl32, u32. change 0x03 with (Z.ones 2). change 0x0f with (Z.ones 4).
    rewrite !Z.land_ones, Z.shiftl_mul_pow2, Z.shiftr_div_pow2 by lia.
    rewrite (Z.mod_small (b0 mod 2 ^ 2 * 2 ^ 4)) by (Z.div_mod_to_equations; lia).
    rewrite lor_disjoint by (try apply Z.mod_pos_bound; lia).
    Z.div_mod_to_equations. lia. }
  assert (E3 : shl32 (Z.land b1 0x0f) 2
               = ((0 * 256 + b0) * 256 + b1) * 2 ^ 2 / 1 mod 64).
  { unfold shl32, u32. change 0x0f with (Z.ones 4).
    rewrite Z.land_ones, Z.shiftl_mul_pow2 by lia.
    Z.div_mod_to_equations. lia. }
  rewrite E1, E2, E3, !alphabet_symbol by apply sextet_bound. reflexivity.
Qed.

Lemma lookup_total_suffix (pre b : list Z) (j : nat) :
  (pre ++ b) !!! (length pre + j)%nat = b !!! j.
Proof.
  rewrite lookup_total_app_r by lia. f_equal. lia.
Qed.

Lemma base64url_gen (rest : list Z) :
  ∀ (pre : list Z) (fuel : nat) (out : list ascii),
    Forall is_byte rest → (length rest ≤ fuel)%nat →
    (let '(i, out') := base64url_loop fuel (pre ++ rest) (length pre) out in
     base64url_tail (pre ++ rest) i out')
    = out ++ Standard.base64url rest.
Proof.
  induction rest as [| b0 | b0 b1 | b0 b1 b2 rest IH] using list_ind3;
    intros pre fuel out Hb Hfuel.
  - (* nothing left *)
    assert (Hloop : base64url_loop fuel (pre ++ []) (length pre) out = (length pre, out)).
    { destruct fuel; cbn [base64url_loop]; [done |].
      replace (length pre + 2 <? length (pre ++ []))%nat with false; [done |].
      symmetry. apply Nat.ltb_ge. rewrite length_app. cbn. lia. }
    rewrite Hloop. unfold base64url_tail.
    replace (length pre <? length (pre ++ []))%nat with false
      by (symmetry; apply Nat.ltb_ge; rewrite length_app; cbn; lia).
    cbn [Standard.base64url]. by rewrite app_nil_r.
  - (* one byte left *)
    assert (Hloop : base64url_loop fuel (pre ++ [b0]) (length pre) out = (length pre, out)).
    { destruct fuel; cbn [base64url_loop]; [done |].
      replace (length pre + 2 <? length (pre ++ [b0]))%nat with false; [done |].
      symmetry. apply Nat.ltb_ge. rewrite length_app. cbn. lia. }
    rewrite Hloop. unfold base64url_tail.
    replace (length pre <? length (pre ++ [b0]))%nat with true
      by (symmetry; apply Nat.ltb_lt; rewrite length_app; cbn; lia).
    replace (length pre + 1 <? length (pre ++ [b0]))%nat with false
      by (symmetry; apply Nat.ltb_ge; rewrite length_app; cbn; lia).
    rewrite list_lookup_total_middle by done.
    apply Forall_cons in Hb as [H0 _].
    cbn [Standard.base64url]. rewrite <- tail1_symbols by done.
    by rewrite <- app_assoc.
  - (* two bytes left *)
    assert (Hloop : base64url_loop fuel (pre ++ [b0; b1]) (length pre) out
                    = (length pre, out)).
    { destruct fuel; cbn [base64url_loop]; [done |].
      replace (length pre + 2 <? length (pre ++ [b0; b1]))%nat with false; [done |].
      symmetry. apply Nat.ltb_ge. rewrite length_app. cbn. lia. }
    rewrite Hloop. unfold base64url_tail.
    replace (length pre <? length (pre ++ [b0; b1]))%nat with true
      by (symmetry; apply Nat.ltb_lt; rewrite length_app; cbn; lia).
    replace (length pre + 1 <? length (pre ++ [b0; b1]))%nat with true
      by (symmetry; apply Nat.ltb_lt; rewrite length_app; cbn; lia).
    pose proof (lookup_total_suffix pre [b0; b1] 0) as E0.
    rewrite Nat.add_0_r in E0.
    rewrite E0, (lookup_total_suffix pre [b0; b1] 1).
    apply Forall_cons in Hb as [H0 Hb]. apply Forall_cons in Hb as [H1 _].
    cbn [Standard.base64url lookup_total list_lookup_total].
    rewrite <- tail2_symbols by done.
    by rewrite <- !app_assoc.
  - (* a full group *)
    destruct fuel as [| fuel]; [cbn in Hfuel; lia |].
    cbn [base64url_loop].
    replace (length pre + 2 <? length (pre ++ b0 :: b1 :: b2 :: rest))%nat with true
      by (symmetry; apply Nat.ltb_lt; rewrite length_app; cbn; lia).
    apply Forall_cons in Hb as [H0 Hb]. apply Forall_cons in Hb as [H1 Hb].
    apply Forall_cons in Hb as [H2 Hb].
    change (pre ++ b0 :: b1 :: b2 :: rest) with (pre ++ [b0; b1; b2] ++ rest).
    pose proof (lookup_total_suffix pre ([b0; b1; b2] ++ rest) 0) as E0.
    rewrite Nat.add_0_r in E0.
    rewrite E0, (lookup_total_suffix pre ([b0; b1; b2] ++ rest) 1),
      (lookup_total_suffix pre ([b0; b1; b2] ++ rest) 2).
    cbn [app lookup_total list_lookup_total].
    change (pre ++ b0 :: b1 :: b2 :: rest) with (pre ++ [b0; b1; b2] ++ rest).
    replace (pre ++ [b0; b1; b2] ++ rest) with ((pre ++ [b0; b1; b2]) ++ rest)
      by (by rewrite <- app_assoc).
    replace (length pre + 3)%nat with (length (pre ++ [b0; b1; b2]))
      by (rewrite length_app; cbn; lia).
    rewrite IH by (cbn in Hfuel; done || lia).
    cbn [Standard.base64url]. rewrite <- group_symbols by done.
    cbv zeta. by rewrite <- !app_assoc.
Qed.

Lemma base64url_refines (data : list Z) :
  Forall is_byte data → base64url data = Standard.base64url data.
Proof.
  intros Hb. unfold base64url.
  exact (base64url_gen data [] (length data) [] Hb (le_n _)).
Qed.

Lemma length_base64url (data : list Z) :
  length (Standard.base64url data) = ((4 * length data + 2) / 3)%nat.
Proof.
  induction data as [| b0 | b0 b1 | b0 b1 b2 rest IH] using list_ind3; try done.
  cbn [Standard.base64url]. rewrite length_app, IH.
  change (length (map _ _)) with 4%nat. cbn [length].
  replace (4 * S (S (S (length rest))) + 2)%nat
    with ((4 * length rest + 2) + 4 * 3)%nat by lia.
  rewrite Nat.div_add by lia. lia.
Qed.

(** No symbol of the alphabet is the padding character. *)
Lemma alphabet_at_not_pad (v : Z) : alphabet_at v ≠ "="%char.
Proof.
  unfold alphabet_at.
  destruct (nth_in_or_default (Z.to_nat v) alphabet "000"%char) as [Hin | ->];
    [| done].
  revert Hin. generalize (nth (Z.to_nat v) alphabet "000"%char). intros c Hin.
  assert (Hall : Forall (fun c => c ≠ "="%char) alphabet)
    by exact (bool_decide_eq_true_1 (Forall (fun c => c ≠ "="%char) alphabet) eq_refl).
  rewrite Forall_forall in Hall. by apply Hall, list_elem_of_In.
Qed.

Lemma base64url_loop_chars (P : ascii → Prop) :
  (∀ v, P (alphabet_at v)) →
  ∀ (fuel : nat) (data : list Z) (i : nat) (out : list ascii),
    Forall P out → Forall P (base64url_loop fuel data i out).2.
Proof.
  intros HP. induction fuel as [| fuel IH]; intros data i out Hout; [done |].
  cbn [base64url_loop]. destruct (i + 2 <? length data)%nat; [| done].
  apply IH. repeat (apply Forall_app_2; [| by repeat constructor]). done.
Qed.

Lemma base64url_tail_chars (P : ascii → Prop) (data : list Z) (i : nat) (out : list ascii) :
  (∀ v, P (alphabet_at v)) → Forall P out → Forall P (base64url_tail data i out).
Proof.
  intros HP Hout. unfold base64url_tail.
  destruct (i <? length data)%nat; [| done].
  destruct (i + 1 <? length data)%nat;
    repeat (apply Forall_app_2; [| by repeat constructor]); done.
Qed.

Lemma base64url_no_pad (data : list Z) : "="%char ∉ base64url data.
Proof.
  assert (H : Forall (fun c => c ≠ "="%char) (base64url data)).
  { unfold base64url.
    pose proof (base64url_loop_chars (fun c => c ≠ "="%char) alphabet_at_not_pad
                  (length data) data 0 [] (Forall_nil_2 _)) as Hloop.
    destruct (base64url_loop (length data) data 0 []) as [i out].
    by apply base64url_tail_chars; [apply alphabet_at_not_pad |]. }
  rewrite Forall_forall in H. intros Hin. by apply (H _ Hin).
Qed.

Lemma symbols_in_alphabet (n : nat) (v : Z) :
  Forall (fun c => c ∈ Standard.base64url_alphabet)
         (map Standard.symbol (Standard.sextets n v)).
Proof.
  unfold Standard.sextets. rewrite map_map. apply Forall_map, Forall_forall.
  intros i _. unfold Standard.symbol. apply list_elem_of_In, nth_In.
  pose proof (sextet_bound v (64 ^ Z.of_nat i)).
  change (length Standard.base64url_alphabet) with 64%nat. lia.
Qed.

Lemma base64url_in_alphabet (data : list Z) :
  Forall (fun c => c ∈ Standard.base64url_alphabet) (Standard.base64url data).
Proof.
  induction data as [| b0 | b0 b1 | b0 b1 b2 rest IH] using list_ind3;
    cbn [Standard.base64url]; try apply symbols_in_alphabet; [done |].
  apply Forall_app_2; [apply symbols_in_alphabet | done].
Qed.

(** C6.  On every byte sequence [base64url] is the standard base64 encoding
    over the alphabet with [-] and [_] in the place of [+] and [/]: full
    groups of three bytes give four symbols, a final single byte two, a
    final pair three, so that the output has [(4 * len + 2) / 3] symbols, all
    of the alphabet, and none of them is the padding character; the PKCE
    challenge, being such an encoding, never contains [=]. *)
Theorem base64url_standard (data : list Z) :
  Forall is_byte data →
  base64url data = Standard.base64url data
  ∧ length (base64url data) = ((4 * length data + 2) / 3)%nat
  ∧ Forall (fun c => c ∈ Standard.base64url_alphabet) (base64url data)
  ∧ ("="%char ∉ base64url data)
  ∧ (∀ {rng} (dist : Z → Z → rng → Z * rng) (g : rng),
       "="%char ∉ challenge (fst (make_pkce_challenge dist g))).
Proof.
  intros Hb. rewrite base64url_refines by done.
  split; [done |]. split; [apply length_base64url |].
  split; [apply base64url_in_alphabet |].
  split; [rewrite <- base64url_refines by done; apply base64url_no_pad |].
  intros rng dist g. unfold make_pkce_challenge.
  destruct (random_alnum dist 64 g) as [v g']. cbn [fst challenge].
  apply base64url_no_pad.
Qed.

Lemma base64url_standard_witness :
  Forall is_byte [255; 254; 253; 252; 251]
  ∧ base64url [255; 254; 253; 252; 251] = Standard.base64url [255; 254; 253; 252; 251].
Proof.
  assert (H : Forall is_byte [255; 254; 253; 252; 251])
    by (repeat constructor; unfold is_byte; lia).
  split; [exact H |].
  exact (proj1 (base64url_standard [255; 254; 253; 252; 251] H)).
Defined.

(** ** The PKCE pair *)

Lemma sha256_bytes (input : list ascii) : Forall is_byte (sha256 input).
Proof.
  rewrite sha256_refines. unfold Standard.SHA256.
  apply Forall_concat, Forall_map, Forall_forall. intros v _. apply be_bytes_byte.
Qed.

Lemma charset_alnum : Forall (fun c => Standard.is_alnum c = true) charset.
Proof. exact (bool_decide_eq_true_1 (Forall (fun c => Standard.is_alnum c = true) charset) eq_refl). Qed.

Section Pkce.
Context {rng : Type} (dist : Z → Z → rng → Z * rng).

(** What [std::uniform_int_distribution] promises: a value of the closed
    interval it was built with. *)
Hypothesis dist_range : ∀ (a b : Z) (g : rng), a ≤ b → a ≤ (dist a b g).1 ≤ b.

Lemma random_alnum_loop_spec (n : nat) (g : rng) (result : list ascii) :
  Forall (fun c => Standard.is_alnum c = true) result →
  length (random_alnum_loop dist n g result).1 = (length result + n)%nat
  ∧ Forall (fun c => Standard.is_alnum c = true) (random_alnum_loop dist n g result).1.
Proof.
  revert g result. induction n as [| n IH]; intros g result Hres.
  - cbn. split; [lia | done].
  - cbn [random_alnum_loop].
    pose proof (dist_range 0 (sizeof_charset - 2) g) as Hk.
    destruct (dist 0 (sizeof_charset - 2) g) as [k g']. cbn [fst] in Hk.
    assert (Hr : 0 ≤ k ≤ 61) by (apply Hk; by vm_compute).
    destruct (IH g' (result ++ [nth (Z.to_nat k) charset "000"%char])) as [IH1 IH2].
    + apply Forall_app_2; [done |]. constructor; [| done].
      pose proof charset_alnum as Hc. rewrite Forall_forall in Hc.
      apply Hc, list_elem_of_In, nth_In. change (length charset) with 62%nat. lia.
    + split; [| done]. rewrite IH1, length_app. cbn. lia.
Qed.

(** C7.  The verifier of a generated pair has 64 characters, which is within
    43 and 128, all of them letters or digits, and the challenge is the
    base64url encoding of the verifier's SHA-256 digest. *)
Theorem make_pkce_challenge_spec (g : rng) :
  let pkce := (make_pkce_challenge dist g).1 in
  (43 ≤ length (verifier pkce) ≤ 128)%nat
  ∧ length (verifier pkce) = 64%nat
  ∧ Forall (fun c => Standard.is_alnum c = true) (verifier pkce)
  ∧ challenge pkce = base64url (sha256 (verifier pkce))
  ∧ challenge pkce = Standard.base64url (Standard.SHA256 (map uchar (verifier pkce))).
Proof.
  unfold make_pkce_challenge, random_alnum.
  destruct (random_alnum_loop_spec 64 g [] (Forall_nil_2 _)) as [Hlen Hchars].
  destruct (random_alnum_loop dist 64 g []) as [v g'].
  cbn [fst verifier challenge length Nat.add] in *.
  repeat split; try lia; try done.
  rewrite base64url_refines by apply sha256_bytes.
  by rewrite sha256_refines.
Qed.

End Pkce.

(** A linear congruential generator, to run the model. *)
Lemma make_pkce_challenge_witness :
  let dist := fun (a b g : Z) =>
                (a + g mod (b - a + 1), (g * 6364136223846793005 + 1442695040888963407) mod 2 ^ 64) in
  (∀ a b g : Z, a ≤ b → a ≤ (dist a b g).1 ≤ b)
  ∧ length (verifier (make_pkce_challenge dist 42).1) = 64%nat.
Proof.
  intros dist.
  assert (H : ∀ a b g : Z, a ≤ b → a ≤ (dist a b g).1 ≤ b).
  { intros a b g Hab. cbn [dist fst].
    pose proof (Z.mod_pos_bound g (b - a + 1)). lia. }
  split; [exact H |].
  exact (proj1 (proj2 (make_pkce_challenge_spec dist H 42))).
Defined.

(** ** Searching and splitting strings *)

Lemma find_char_None (c : ascii) (s : list ascii) :
  find_char c s = None ↔ c ∉ s.
Proof.
  induction s as [| x s IH]; cbn [find_char].
  - split; [intros _; apply not_elem_of_nil | done].
  - rewrite not_elem_of_cons. destruct (Ascii.eqb_spec x c) as [-> | Hne].
    + split; [done | intros [? _]; done].
    + destruct (find_char c s); cbn [fmap option_fmap option_map].
      * split; [done |]. intros [_ H]. by apply IH in H.
      * split; [| done]. intros _. split; [congruence | by apply IH].
Qed.

Lemma find_char_Some (c : ascii) (s : list ascii) (k : nat) :
  find_char c s = Some k →
  ∃ a b, s = a ++ c :: b ∧ length a = k ∧ c ∉ a.
Proof.
  revert k. induction s as [| x s IH]; intros k; cbn [find_char]; [done |].
  destruct (Ascii.eqb_spec x c) as [-> | Hne].
  - intros [= <-]. exists [], s. repeat split. apply not_elem_of_nil.
  - destruct (find_char c s) as [j |]; cbn [fmap option_fmap option_map]; [| done].
    intros [= <-]. destruct (IH j eq_refl) as (a & b & -> & Ha & Hc).
    exists (x :: a), b. repeat split; [by cbn; rewrite Ha |].
    rewrite not_elem_of_cons. split; [congruence | done].
Qed.

Lemma find_char_app (c : ascii) (a b : list ascii) :
  c ∉ a → find_char c (a ++ c :: b) = Some (length a).
Proof.
  induction a as [| x a IH]; intros Ha; cbn [app find_char length].
  - by rewrite Ascii.eqb_refl.
  - apply not_elem_of_cons in Ha as [Hne Ha].
    destruct (Ascii.eqb_spec x c) as [-> | _]; [done |].
    by rewrite IH.
Qed.

(** A string has no [c], or a first one. *)
Lemma first_occurrence (c : ascii) (s : list ascii) :
  c ∉ s ∨ ∃ a b, s = a ++ c :: b ∧ c ∉ a.
Proof.
  destruct (find_char c s) as [k |] eqn:Hf.
  - right. destruct (find_char_Some _ _ _ Hf) as (a & b & ? & _ & ?). eauto.
  - left. by apply find_char_None.
Qed.

Lemma split_on_no_sep (sep : ascii) (s : list ascii) :
  sep ∉ s → Standard.split_on sep s = [s].
Proof.
  induction s as [| x s IH]; intros Hs; cbn [Standard.split_on]; [done |].
  apply not_elem_of_cons in Hs as [Hne Hs].
  destruct (Ascii.eqb_spec x sep) as [-> | _]; [done |].
  by rewrite IH.
Qed.

Lemma split_on_app (sep : ascii) (a b : list ascii) :
  sep ∉ a → Standard.split_on sep (a ++ sep :: b) = a :: Standard.split_on sep b.
Proof.
  induction a as [| x a IH]; intros Ha; cbn [app Standard.split_on].
  - by rewrite Ascii.eqb_refl.
  - apply not_elem_of_cons in Ha as [Hne Ha].
    destruct (Ascii.eqb_spec x sep) as [-> | _]; [done |].
    by rewrite IH.
Qed.

Lemma split_join (sep : ascii) (segs : list (list ascii)) :
  segs ≠ [] → Forall (fun seg => sep ∉ seg) segs →
  Standard.split_on sep (Standard.join sep segs) = segs.
Proof.
  induction segs as [| seg segs IH]; intros Hne Hall; [done |].
  apply Forall_cons in Hall as [Hseg Hall].
  destruct segs as [| seg' segs].
  - cbn [Standard.join]. by apply split_on_no_sep.
  - change (Standard.join sep (seg :: seg' :: segs))
      with (seg ++ sep :: Standard.join sep (seg' :: segs)).
    rewrite split_on_app by done. f_equal. by apply IH.
Qed.

(** ** The source's [std::string] calls, on a string cut in two *)

Lemma find_from_suffix (c : ascii) (pre rest : list ascii) :
  find_from c (length pre) (pre ++ rest)
  = (fun i => (length pre + i)%nat) <$> find_char c rest.
Proof. unfold find_from. by rewrite drop_app_length. Qed.

Lemma substr_suffix (pre rest : list ascii) (count : option nat) :
  substr (pre ++ rest) (length pre) count
  = Ok (match count with None => rest | Some n => take n rest end).
Proof.
  unfold substr.
  replace (length (pre ++ rest) <? length pre)%nat with false
    by (symmetry; apply Nat.ltb_ge; rewrite length_app; lia).
  by rewrite drop_app_length.
Qed.

Lemma rfind_0_starts_with (pat s : list ascii) :
  bool_decide (rfind_0 pat s = Some O) = starts_with pat s.
Proof. unfold rfind_0. by destruct (starts_with pat s). Qed.

(** ** extract_code_from_callback_target *)

(** What one iteration does with the segment [param] it has cut out. *)
Lemma code_param_value (param : list ascii) :
  Standard.is_code_param param = true →
  substr param 5 None = Ok (drop 5 param).
Proof.
  unfold Standard.is_code_param, substr. intros [_ Hlen]%andb_prop.
  apply Nat.ltb_lt in Hlen.
  by replace (length param <? 5)%nat with false by (symmetry; apply Nat.ltb_ge; lia).
Qed.

Lemma extract_code_loop_spec (fuel : nat) :
  ∀ pre rest : list ascii,
    (length rest ≤ fuel)%nat →
    extract_code_loop fuel (pre ++ rest) (length pre)
    = Standard.first_code Standard.is_code_param (Standard.split_on "&" rest).
Proof.
  induction fuel as [| fuel IH]; intros pre rest Hfuel.
  - destruct rest; [done | cbn in Hfuel; lia].
  - cbn [extract_code_loop].
    destruct rest as [| x rest'] eqn:Hrest.
    { rewrite app_nil_r, Nat.ltb_irrefl. done. }
    rewrite <- Hrest in *.
    replace (length pre <? length (pre ++ rest))%nat with true
      by (symmetry; apply Nat.ltb_lt; rewrite length_app, Hrest; cbn; lia).
    rewrite find_from_suffix.
    destruct (find_char "&" rest) as [k |] eqn:Hfind; cbn [fmap option_fmap option_map].
    + destruct (find_char_Some _ _ _ Hfind) as (a & b & Hab & Hk & Ha).
      rewrite substr_suffix, Hab, split_on_app by done.
      replace (length pre + k - length pre)%nat with (length a) by lia.
      rewrite take_app_length. cbn [mbind result_bind].
      rewrite rfind_0_starts_with.
      unfold Standard.first_code. cbn [List.find].
      fold (Standard.is_code_param a).
      destruct (Standard.is_code_param a) eqn:Hsel.
      * rewrite code_param_value by done. reflexivity.
      * replace (pre ++ a ++ "&"%char :: b) with ((pre ++ a ++ ["&"%char]) ++ b)
          by (by rewrite <- !app_assoc).
        replace (length pre + k + 1)%nat with (length (pre ++ a ++ ["&"%char]))
          by (rewrite !length_app; cbn; lia).
        rewrite IH; [done |].
        rewrite Hab, length_app in Hfuel. cbn in Hfuel. lia.
    + apply find_char_None in Hfind.
      rewrite substr_suffix, split_on_no_sep by done.
      cbn [mbind result_bind]. rewrite rfind_0_starts_with.
      unfold Standard.first_code. cbn [List.find].
      fold (Standard.is_code_param rest).
      destruct (Standard.is_code_param rest) eqn:Hsel; [| done].
      rewrite code_param_value by done. reflexivity.
Qed.

Lemma extract_code_spec (path query : list ascii) :
  "?"%char ∉ path →
  extract_code_from_callback_target (path ++ "?"%char :: query)
  = Standard.first_code Standard.is_code_param (Standard.split_on "&" query).
Proof.
  intros Hpath. unfold extract_code_from_callback_target, find_from.
  rewrite drop_0, find_char_app by done. cbn [fmap option_fmap option_map Nat.add].
  replace (path ++ "?"%char :: query) with ((path ++ ["?"%char]) ++ query)
    by (by rewrite <- app_assoc).
  replace (length path + 1)%nat with (length (path ++ ["?"%char]))
    by (rewrite length_app; cbn; lia).
  rewrite substr_suffix. cbn [mbind result_bind].
  exact (extract_code_loop_spec (length query) [] query (le_n _)).
Qed.

Lemma extract_code_no_query (target : list ascii) :
  "?"%char ∉ target → extract_code_from_callback_target target = Ok None.
Proof.
  intros Ht. unfold extract_code_from_callback_target, find_from.
  rewrite drop_0. apply find_char_None in Ht. by rewrite Ht.
Qed.

Lemma url_decode_loop_length (fuel : nat) :
  ∀ (value : list ascii) (i : nat) (out decoded : list ascii),
    url_decode_loop fuel value i out = Ok decoded →
    (length out ≤ length decoded)%nat
    ∧ ((0 < fuel)%nat → (i < length value)%nat → (length out < length decoded)%nat).
Proof.
  induction fuel as [| fuel IH]; intros value i out decoded.
  - cbn [url_decode_loop]. intros [= <-]. split; lia.
  - cbn [url_decode_loop]. destruct (Nat.ltb_spec i (length value)) as [Hi | Hi].
    2:{ intros [= <-]. split; lia. }
    assert (Hstep : ∀ j x, url_decode_loop fuel value j (out ++ [x]) = Ok decoded →
                           (length out < length decoded)%nat).
    { intros j x Hrec. apply IH in Hrec as [Hle _].
      rewrite length_app in Hle. cbn in Hle. lia. }
    destruct (Ascii.eqb (char_at value i) "%" && (i + 2 <? length value)%nat).
    + destruct (substr value (i + 1) (Some 2%nat)) as [hex | e]; cbn [mbind result_bind];
        [| done].
      destruct (stoi_16 hex) as [n | e]; cbn [mbind result_bind]; [| done].
      intros Hrec%Hstep. split; lia.
    + destruct (Ascii.eqb (char_at value i) "+"); intros Hrec%Hstep; split; lia.
Qed.

Lemma url_decode_nonempty (value decoded : list ascii) :
  value ≠ [] → url_decode value = Ok decoded → decoded ≠ [].
Proof.
  intros Hne Hdec. unfold url_decode in Hdec.
  apply url_decode_loop_length in Hdec as [_ Hlt].
  destruct value; [done |]. destruct decoded; [| done].
  cbn in Hlt. lia.
Qed.

Lemma first_code_nonempty (segs : list (list ascii)) :
  Standard.first_code Standard.is_code_param segs ≠ Ok (Some []).
Proof.
  unfold Standard.first_code.
  destruct (List.find Standard.is_code_param segs) as [seg |] eqn:Hfind; [| done].
  apply find_some in Hfind as [_ [_ Hlen%Nat.ltb_lt]%andb_prop].
  destruct (url_decode (drop 5 seg)) as [decoded | e] eqn:Hdec;
    cbn [mbind result_bind]; [| done].
  intros [= ->].
  assert (Hne : drop 5 seg ≠ []).
  { intros Hnil%(f_equal length). rewrite length_drop in Hnil. cbn in Hnil. lia. }
  exact (url_decode_nonempty _ _ Hne Hdec eq_refl).
Qed.

Lemma first_code_split_join (segs : list (list ascii)) :
  Forall (fun seg => "&"%char ∉ seg) segs →
  Standard.first_code Standard.is_code_param
    (Standard.split_on "&" (Standard.join "&" segs))
  = Standard.first_code Standard.is_code_param segs.
Proof.
  intros Hall. destruct segs as [| seg segs]; [done |].
  by rewrite split_join.
Qed.

Lemma find_code_filter (segs : list (list ascii)) :
  List.find Standard.is_code_param (filter (fun seg => seg ≠ str "code=") segs)
  = List.find Standard.is_code_param segs.
Proof.
  induction segs as [| seg segs IH]; [done |].
  rewrite filter_cons. destruct (decide (seg ≠ str "code=")) as [Hne | Heq].
  - cbn [List.find]. by rewrite IH.
  - apply dec_stable in Heq. subst seg. cbn [List.find].
    change (Standard.is_code_param (str "code=")) with false. done.
Qed.

(** The claim as the specification words it (the first segment whose key is
    [code] gives the result, whatever its value) fails on a query whose
    first [code] is empty: the source goes on to the next segment. *)
Lemma extract_code_first_key_counterexample :
  Standard.first_code Standard.has_code_key
    (Standard.split_on "&" (str "code=&code=v")) = Ok (Some [])
  ∧ extract_code_from_callback_target (str "/?code=&code=v") = Ok (Some (str "v"))
  ∧ extract_code_from_callback_target (str "/?code=&code=v")
    ≠ Standard.first_code Standard.has_code_key
        (Standard.split_on "&" (str "code=&code=v")).
Proof. by vm_compute. Qed.

(** C4, amended.  A target without [?] gives no code.  Otherwise the query
    after the first [?] is cut at every [&]; the first segment that starts
    with [code=] and has a value that is not empty decides: its value,
    percent-decoded, is the result; without such a segment there is no code.
    The target of the smoke test gives [abc123/foo+bar]. *)
Theorem extract_code_first_nonempty (path query : list ascii) :
  ("?"%char ∉ path) →
  extract_code_from_callback_target path = Ok None
  ∧ match List.find Standard.is_code_param (Standard.split_on "&" query) with
    | Some seg =>
        ∀ decoded, url_decode (drop 5 seg) = Ok decoded →
                   extract_code_from_callback_target (path ++ "?"%char :: query)
                   = Ok (Some decoded)
    | None =>
        extract_code_from_callback_target (path ++ "?"%char :: query) = Ok None
    end
  ∧ extract_code_from_callback_target (str "/?code=abc123%2Ffoo%2Bbar&state=foo")
    = Ok (Some (str "abc123/foo+bar")).
Proof.
  intros Hpath. split; [by apply extract_code_no_query |]. split; [| by vm_compute].
  rewrite extract_code_spec by done. unfold Standard.first_code.
  destruct (List.find _ _) as [seg |]; [| done].
  intros decoded ->. done.
Qed.

Lemma extract_code_first_nonempty_witness :
  ("?"%char ∉ str "/")
  ∧ extract_code_from_callback_target (str "/" ++ "?"%char :: str "code=a%2Fb&state=foo")
    = Ok (Some (str "a/b")).
Proof.
  assert (H : "?"%char ∉ str "/") by (by apply find_char_None).
  split; [exact H |].
  exact (proj1 (proj2 (extract_code_first_nonempty (str "/") (str "code=a%2Fb&state=foo") H))
           (str "a/b") eq_refl).
Defined.

(** C10.  A segment that is exactly [code=] is passed over: removing every
    such segment from the query does not change the result, and the result
    is never the empty string.  [/?code=] and [/?code=&state=x] give no
    code; [/?code=&code=v] gives [v]. *)
Theorem extract_code_skips_empty (path : list ascii) (segs : list (list ascii)) :
  "?"%char ∉ path → Forall (fun seg => "&"%char ∉ seg) segs →
  extract_code_from_callback_target (path ++ "?"%char :: Standard.join "&" segs)
  = extract_code_from_callback_target
      (path ++ "?"%char :: Standard.join "&" (filter (fun seg => seg ≠ str "code=") segs))
  ∧ (∀ target, extract_code_from_callback_target target ≠ Ok (Some []))
  ∧ extract_code_from_callback_target (str "/?code=") = Ok None
  ∧ extract_code_from_callback_target (str "/?code=&state=x") = Ok None
  ∧ extract_code_from_callback_target (str "/?code=&code=v") = Ok (Some (str "v")).
Proof.
  intros Hpath Hsegs. split; [| split; [| by vm_compute]].
  - rewrite !extract_code_spec by done.
    rewrite (first_code_split_join segs) by done.
    rewrite first_code_split_join.
    + unfold Standard.first_code. by rewrite find_code_filter.
    + rewrite Forall_forall in Hsegs. apply Forall_forall.
      intros seg [_ Hin]%list_elem_of_filter. by apply Hsegs.
  - intros target. destruct (first_occurrence "?" target) as [Hno | (a & b & -> & Ha)].
    + by rewrite extract_code_no_query.
    + rewrite extract_code_spec by done. apply first_code_nonempty.
Qed.

Lemma extract_code_skips_empty_witness :
  ("?"%char ∉ str "/")
  ∧ Forall (fun seg => "&"%char ∉ seg) [str "code="; str "state=x"; str "code=v"]
  ∧ extract_code_from_callback_target
      (str "/" ++ "?"%char :: Standard.join "&" [str "code="; str "state=x"; str "code=v"])
    = extract_code_from_callback_target
        (str "/" ++ "?"%char
           :: Standard.join "&"
                (filter (fun seg => seg ≠ str "code=")
                        [str "code="; str "state=x"; str "code=v"])).
Proof.
  assert (H1 : "?"%char ∉ str "/") by (by apply find_char_None).
  assert (H2 : Forall (fun seg => "&"%char ∉ seg) [str "code="; str "state=x"; str "code=v"])
    by (repeat constructor; by apply find_char_None).
  split; [exact H1 |]. split; [exact H2 |].
  exact (proj1 (extract_code_skips_empty (str "/") _ H1 H2)).
Defined.


(** ** Percent-encoding *)

Lemma upper_hex_digit_encoded (n : Z) :
  0 ≤ n < 16 → Standard.is_encoded_char (upper_hex_digit n) = true.
Proof.
  intros Hn. unfold upper_hex_digit.
  assert (Hall : Forall (fun c => Standard.is_encoded_char c = true) (str "0123456789ABCDEF"))
    by exact (bool_decide_eq_true_1
                (Forall (fun c => Standard.is_encoded_char c = true) (str "0123456789ABCDEF"))
                eq_refl).
  rewrite Forall_forall in Hall. apply Hall, list_elem_of_In, nth_In.
  change (length (str "0123456789ABCDEF")) with 16%nat. lia.
Qed.

Lemma escape_encoded (c : Z) :
  is_byte c →
  Forall (fun c => Standard.is_encoded_char c = true)
         (["%"%char] ++ setw_setfill 2 "0" (upper_hex c)).
Proof.
  unfold is_byte. intros Hc. constructor; [done |].
  unfold setw_setfill, upper_hex. apply Forall_app_2.
  - by apply Forall_replicate.
  - destruct (c <? 16) eqn:Hlt.
    + apply Z.ltb_lt in Hlt. repeat constructor. apply upper_hex_digit_encoded. lia.
    + repeat constructor; apply upper_hex_digit_encoded.
      * Z.div_mod_to_equations. lia.
      * Z.div_mod_to_equations. lia.
Qed.

Lemma url_encode_fold_chars (raw acc : list ascii) :
  Forall (fun c => Standard.is_encoded_char c = true) acc →
  Forall (fun c => Standard.is_encoded_char c = true)
         (fold_left (fun encoded ch =>
                       let c := uchar ch in
                       if unreserved c then encoded ++ [ch]
                       else encoded ++ ["%"%char] ++ setw_setfill 2 "0" (upper_hex c))
                    raw acc).
Proof.
  revert acc. induction raw as [| ch raw IH]; intros acc Hacc; [done |].
  cbn [fold_left]. apply IH. cbv zeta.
  destruct (unreserved (uchar ch)) eqn:Hu.
  - apply Forall_app_2; [done |]. repeat constructor.
    unfold Standard.is_encoded_char. by rewrite Hu.
  - apply Forall_app_2; [done |]. apply escape_encoded, uchar_byte.
Qed.

Lemma url_encode_chars (raw : list ascii) :
  Forall (fun c => Standard.is_encoded_char c = true) (url_encode raw).
Proof. apply url_encode_fold_chars, Forall_nil_2. Qed.

Lemma url_encode_excludes (c : ascii) (raw : list ascii) :
  Standard.is_encoded_char c = false → c ∉ url_encode raw.
Proof.
  intros Hc Hin. pose proof (url_encode_chars raw) as Hall.
  rewrite Forall_forall in Hall. apply Hall in Hin. congruence.
Qed.

Lemma param_no_amp (kv : string * list ascii) :
  "&"%char ∉ str kv.1 → "&"%char ∉ Standard.param kv.
Proof.
  intros Hkey. unfold Standard.param. rewrite not_elem_of_app, not_elem_of_cons.
  split; [done |]. split; [done |]. by apply url_encode_excludes.
Qed.

(** ** build_auth_url *)

Lemma build_auth_url_params (now : Z) (pkce : PkceChallenge) (port : Z)
    (provider : LoginProvider) :
  build_auth_url now pkce port provider
  = Standard.authorization_endpoint
      ++ Standard.join "&"
           (map Standard.param
                (Standard.authorization_params device_id (generate_nonce now)
                   (challenge pkce) (idp_id provider) port)).
Proof.
  unfold build_auth_url, Standard.authorization_params, Standard.authorization_endpoint.
  cbn [map]. unfold Standard.param. cbn [fst snd].
  assert (E1 : url_encode (str "code") = str "code") by (by vm_compute).
  assert (E2 : url_encode (str "en_US") = str "en_US") by (by vm_compute).
  assert (E3 : url_encode (str "select_account") = str "select_account") by (by vm_compute).
  assert (E4 : url_encode (str "S256") = str "S256") by (by vm_compute).
  rewrite E1, E2, E3, E4. unfold kScopes, kClientId.
  generalize (url_encode device_id).
  generalize (url_encode (str "openid consent email tk_client age")).
  generalize (url_encode (str "ZU7sPN-miLujMD95LfOQ453IB0AtjM8sMyvgJ9wCXEQ")).
  generalize (url_encode (str "http://localhost:" ++ to_string port)).
  generalize (url_encode (generate_nonce now)).
  generalize (url_encode (challenge pkce)).
  generalize (url_encode (idp_id provider)).
  intros e7 e6 e5 e4 e3 e2 e1.
  cbn [Standard.join str list_ascii_of_string app].
  rewrite <- ?app_assoc. reflexivity.
Qed.

Lemma authorization_params_no_amp (device nonce code_challenge idp : list ascii) (port : Z) :
  Forall (fun seg => "&"%char ∉ seg)
         (map Standard.param
              (Standard.authorization_params device nonce code_challenge idp port)).
Proof.
  unfold Standard.authorization_params. cbn [map].
  repeat (apply Forall_cons; split; [apply param_no_amp; by apply find_char_None |]).
  apply Forall_nil_2.
Qed.

Lemma build_auth_url_query (now : Z) (pkce : PkceChallenge) (port : Z)
    (provider : LoginProvider) :
  Standard.split_on "&"
    (drop (length Standard.authorization_endpoint) (build_auth_url now pkce port provider))
  = map Standard.param
        (Standard.authorization_params device_id (generate_nonce now)
           (challenge pkce) (idp_id provider) port).
Proof.
  rewrite build_auth_url_params, drop_app_length.
  apply split_join; [done | apply authorization_params_no_amp].
Qed.

(** Looking a key up among the eleven segments. *)
Lemma query_param_lookup (now : Z) (pkce : PkceChallenge) (port : Z)
    (provider : LoginProvider) :
  let params := Standard.authorization_params device_id (generate_nonce now)
                  (challenge pkce) (idp_id provider) port in
  map (fun kv => Standard.query_param kv.1
                   (drop (length Standard.authorization_endpoint)
                         (build_auth_url now pkce port provider)))
      params
  = map (fun kv => Some (url_encode kv.2)) params.
Proof.
  intros params. unfold Standard.query_param.
  rewrite build_auth_url_query. subst params.
  unfold Standard.authorization_params. cbn [map]. unfold Standard.param. cbn [fst snd].
  generalize (url_encode device_id).
  generalize (url_encode (str "openid consent email tk_client age")).
  generalize (url_encode (str "ZU7sPN-miLujMD95LfOQ453IB0AtjM8sMyvgJ9wCXEQ")).
  generalize (url_encode (str "http://localhost:" ++ to_string port)).
  generalize (url_encode (generate_nonce now)).
  generalize (url_encode (challenge pkce)).
  generalize (url_encode (idp_id provider)).
  generalize (url_encode (str "code")).
  generalize (url_encode (str "en_US")).
  generalize (url_encode (str "select_account")).
  generalize (url_encode (str "S256")).
  intros. reflexivity.
Qed.

(** C5.  For every clock reading, challenge, port and provider the URL is
    the authorization endpoint followed by eleven [key=value] segments
    separated by [&], with the keys in the fixed order, [redirect_uri] built
    from [http://localhost:] and the port, every value percent-encoded on its
    own (so that it holds nothing but unreserved characters and [%XX]
    escapes and can be read back under its key), and
    [code_challenge_method=S256] among the segments. *)
Theorem build_auth_url_shape (now : Z) (pkce : PkceChallenge) (port : Z)
    (provider : LoginProvider) :
  let url := build_auth_url now pkce port provider in
  let query := drop (length Standard.authorization_endpoint) url in
  let params := Standard.authorization_params device_id (generate_nonce now)
                  (challenge pkce) (idp_id provider) port in
  url = Standard.authorization_endpoint ++ query
  ∧ Standard.split_on "&" query = map Standard.param params
  ∧ map fst params
    = [ "response_type"; "device_id"; "scope"; "client_id"; "redirect_uri";
        "ui_locales"; "nonce"; "prompt"; "code_challenge"; "code_challenge_method";
        "idp_id" ]%string
  ∧ params !! 4%nat = Some ("redirect_uri"%string, str "http://localhost:" ++ to_string port)
  ∧ Forall (fun kv => Forall (fun c => Standard.is_encoded_char c = true) (url_encode kv.2))
           params
  ∧ map (fun kv => Standard.query_param kv.1 query) params
    = map (fun kv => Some (url_encode kv.2)) params
  ∧ str "response_type=code" ∈ Standard.split_on "&" query
  ∧ str "ui_locales=en_US" ∈ Standard.split_on "&" query
  ∧ str "prompt=select_account" ∈ Standard.split_on "&" query
  ∧ str "code_challenge_method=S256" ∈ Standard.split_on "&" query.
Proof.
  intros url query params.
  assert (Hq : Standard.split_on "&" query = map Standard.param params)
    by apply build_auth_url_query.
  split.
  { subst query url. rewrite build_auth_url_params. by rewrite drop_app_length. }
  split; [exact Hq |]. split; [done |]. split; [done |].
  split.
  { apply Forall_forall. intros kv _. apply url_encode_chars. }
  split; [apply query_param_lookup |].
  rewrite Hq. subst params. unfold Standard.authorization_params. cbn [map].
  assert (E1 : Standard.param ("response_type"%string, str "code") = str "response_type=code")
    by (by vm_compute).
  assert (E2 : Standard.param ("ui_locales"%string, str "en_US") = str "ui_locales=en_US")
    by (by vm_compute).
  assert (E3 : Standard.param ("prompt"%string, str "select_account")
               = str "prompt=select_account") by (by vm_compute).
  assert (E4 : Standard.param ("code_challenge_method"%string, str "S256")
               = str "code_challenge_method=S256") by (by vm_compute).
  rewrite E1, E2, E3, E4.
  repeat split; apply list_elem_of_lookup.
  - by exists 0%nat.
  - by exists 5%nat.
  - by exists 7%nat.
  - by exists 9%nat.
Qed.

(** ** device_id *)

(** C9.  [device_id] takes nothing from the clock, the generator or its
    caller: it is one fixed string, the base64url encoding of the SHA-256
    digest of the device label, and the [device_id] parameter read back from
    the URL is that string whatever the inputs of [build_auth_url], so two
    runs agree. *)
Theorem device_id_deterministic :
  device_id = str "0eEyHnQIzdmwiIeQ56sBduGKnPXYjDb_npVDaPwBl30"
  ∧ device_id
    = Standard.base64url (Standard.SHA256 (map uchar (str "opennow-rewrite-device")))
  ∧ ∀ (now1 now2 : Z) (pkce1 pkce2 : PkceChallenge) (port1 port2 : Z)
      (provider1 provider2 : LoginProvider),
      let device_param url :=
        Standard.query_param "device_id"
          (drop (length Standard.authorization_endpoint) url) in
      device_param (build_auth_url now1 pkce1 port1 provider1)
      = Some (str "0eEyHnQIzdmwiIeQ56sBduGKnPXYjDb_npVDaPwBl30")
      ∧ device_param (build_auth_url now1 pkce1 port1 provider1)
        = device_param (build_auth_url now2 pkce2 port2 provider2).
Proof.
  assert (Hid : device_id = str "0eEyHnQIzdmwiIeQ56sBduGKnPXYjDb_npVDaPwBl30")
    by (by vm_compute).
  assert (Henc : url_encode device_id = str "0eEyHnQIzdmwiIeQ56sBduGKnPXYjDb_npVDaPwBl30")
    by (by vm_compute).
  split; [exact Hid |]. split.
  { unfold device_id. rewrite base64url_refines by apply sha256_bytes.
    apply (f_equal Standard.base64url), sha256_refines. }
  assert (Hparam : ∀ now pkce port provider,
             Standard.query_param "device_id"
               (drop (length Standard.authorization_endpoint)
                     (build_auth_url now pkce port provider))
             = Some (str "0eEyHnQIzdmwiIeQ56sBduGKnPXYjDb_npVDaPwBl30")).
  { intros now pkce port provider.
    pose proof (query_param_lookup now pkce port provider) as Hlook.
    apply (f_equal (fun l => l !! 1%nat)) in Hlook.
    cbv zeta in Hlook. unfold Standard.authorization_params in Hlook.
    cbn [map lookup list_lookup fst snd] in Hlook.
    apply (inj Some) in Hlook. rewrite Hlook. exact (f_equal Some Henc). }
  intros now1 now2 pkce1 pkce2 port1 port2 provider1 provider2 device_param.
  subst device_param. cbv beta. rewrite !Hparam. split; reflexivity.
Qed.

(** ** pick_callback_port *)

Lemma pick_callback_port_loop_spec (n : net) (ports : list Z) :
  ∀ (c : nat) (l : list event),
  ∃ (r : option Z) (k : nat),
    pick_callback_port_loop ports (World n c l)
    = (Ok r, World n (c + k) (l ++ Standard.probes_log n c (take k ports)))
    ∧ match r with
      | Some p =>
          ∃ i, k = S i ∧ ports !! i = Some p
               ∧ Standard.available n (c + i) p = true
               ∧ ∀ j q, (j < i)%nat → ports !! j = Some q →
                        Standard.available n (c + j) q = false
      | None =>
          k = length ports
          ∧ ∀ j q, ports !! j = Some q → Standard.available n (c + j) q = false
      end.
Proof.
  induction ports as [| p rest IH]; intros c l.
  - exists None, 0%nat. cbn. rewrite Nat.add_0_r, app_nil_r. repeat split.
    intros j q Hj. by rewrite lookup_nil in Hj.
  - cbn [pick_callback_port_loop]. unfold io_bind at 1, sys_socket. cbn [os socket_calls log].
    destruct (socket_ret n c =? kInvalidSocket) eqn:Hs.
    + (* no probe socket *)
      destruct (IH (S c) (l ++ [EvSocket (socket_ret n c)])) as (r & k & Hrun & Hr).
      exists r, (S k). split.
      { rewrite Hrun. cbn [take Standard.probes_log]. unfold Standard.probe_events.
        rewrite Hs, <- app_assoc. by rewrite Nat.add_succ_comm. }
      assert (Hp : Standard.available n (c + 0) p = false)
        by (unfold Standard.available; by rewrite Nat.add_0_r, Hs).
      destruct r as [p' |].
      * destruct Hr as (i & -> & Hi & Hav & Hbefore).
        exists (S i). repeat split; [done | by rewrite <- Nat.add_succ_comm |].
        intros [| j] q Hj Hq; [by injection Hq as <- |].
        rewrite <- Nat.add_succ_comm. apply Hbefore; [lia | done].
      * destruct Hr as [-> Hnone]. split; [done |].
        intros [| j] q Hq; [by injection Hq as <- |].
        rewrite <- Nat.add_succ_comm. by apply Hnone.
    + (* a probe socket: bind it, close it *)
      unfold io_bind, bind_localhost_port, close_socket, emit, io_ret.
      cbn [os socket_calls log].
      destruct (bind_ret n p =? 0) eqn:Hb.
      * exists (Some p), 1%nat. split.
        { cbn [take Standard.probes_log]. unfold Standard.probe_events.
          rewrite Hs, app_nil_r, <- !app_assoc. by rewrite Nat.add_1_r. }
        exists 0%nat. repeat split; [| intros j q Hj; lia].
        unfold Standard.available. by rewrite Nat.add_0_r, Hs, Hb.
      * fold (io_bind (A := socket_t) (B := option Z)).
        destruct (IH (S c) (((l ++ [EvSocket (socket_ret n c)])
                               ++ [EvBind (socket_ret n c) p])
                              ++ [EvClose (socket_ret n c)])) as (r & k & Hrun & Hr).
        exists r, (S k). split.
        { change (pick_callback_port_loop rest
                    (World n (S c)
                       (((l ++ [EvSocket (socket_ret n c)]) ++ [EvBind (socket_ret n c) p])
                          ++ [EvClose (socket_ret n c)]))
                  = (Ok r, World n (c + S k)
                             (l ++ Standard.probes_log n c (take (S k) (p :: rest))))).
          rewrite Hrun. cbn [take Standard.probes_log]. unfold Standard.probe_events.
          rewrite Hs, <- !app_assoc. by rewrite Nat.add_succ_comm. }
        assert (Hp : Standard.available n (c + 0) p = false)
          by (unfold Standard.available; by rewrite Nat.add_0_r, Hs, Hb).
        destruct r as [p' |].
        -- destruct Hr as (i & -> & Hi & Hav & Hbefore).
           exists (S i). repeat split; [done | by rewrite <- Nat.add_succ_comm |].
           intros [| j] q Hj Hq; [by injection Hq as <- |].
           rewrite <- Nat.add_succ_comm. apply Hbefore; [lia | done].
        -- destruct Hr as [-> Hnone]. split; [done |].
           intros [| j] q Hq; [by injection Hq as <- |].
           rewrite <- Nat.add_succ_comm. by apply Hnone.
Qed.

Lemma find_bindable (n : net) (ports : list Z) (c : nat) (r : option Z) :
  (∀ i, socket_ret n i ≠ kInvalidSocket) →
  match r with
  | Some p =>
      ∃ i, ports !! i = Some p ∧ Standard.available n (c + i) p = true
           ∧ ∀ j q, (j < i)%nat → ports !! j = Some q →
                    Standard.available n (c + j) q = false
  | None => ∀ j q, ports !! j = Some q → Standard.available n (c + j) q = false
  end →
  List.find (fun p => bind_ret n p =? 0) ports = r.
Proof.
  intros Hsock.
  assert (Hav : ∀ i p, Standard.available n i p = (bind_ret n p =? 0)).
  { intros i p. unfold Standard.available.
    destruct (Z.eqb_spec (socket_ret n i) kInvalidSocket) as [Heq | _]; [| done].
    by destruct (Hsock i). }
  revert c. induction ports as [| p ports IH]; intros c Hr.
  - destruct r as [q |]; [| done]. destruct Hr as (i & Hi & _). by rewrite lookup_nil in Hi.
  - cbn [List.find]. destruct (bind_ret n p =? 0) eqn:Hb.
    + destruct r as [q |].
      * destruct Hr as ([| i] & Hi & _ & Hbefore); [by injection Hi as -> |].
        specialize (Hbefore 0%nat p (Nat.lt_0_succ _) eq_refl).
        rewrite Hav in Hbefore. congruence.
      * specialize (Hr 0%nat p eq_refl). rewrite Hav in Hr. congruence.
    + apply (IH (S c)). destruct r as [q |].
      * destruct Hr as ([| i] & Hi & Hq & Hbefore).
        { injection Hi as ->. rewrite Hav in Hq. congruence. }
        exists i. split; [done |]. split; [by rewrite Nat.add_succ_comm |].
        intros j q' Hj Hq'. rewrite Nat.add_succ_comm.
        apply Hbefore; [lia | done].
      * intros j q Hq. rewrite Nat.add_succ_comm. by apply Hr.
Qed.

(** C8.  The candidates are 2259, 6460, 7119, 8870 and 9096, probed in that
    order, each probe socket closed right after its [bind]; for every answer
    of the operating system the result is the first candidate that could be
    bound, and there is no result exactly when none of the five could be.
    When [socket] itself never fails this is the first port of the list that
    [bind] accepts. *)
Theorem pick_callback_port_first_available (n : net) :
  kRedirectPorts = [2259; 6460; 7119; 8870; 9096]
  ∧ (∃ r k, pick_callback_port (start n)
            = (Ok r, World n k (Standard.probes_log n 0 (take k kRedirectPorts))))
  ∧ (∀ p, (pick_callback_port (start n)).1 = Ok (Some p)
          ↔ ∃ i, kRedirectPorts !! i = Some p
                 ∧ Standard.available n i p = true
                 ∧ ∀ j q, (j < i)%nat → kRedirectPorts !! j = Some q →
                          Standard.available n j q = false)
  ∧ ((pick_callback_port (start n)).1 = Ok None
     ↔ ∀ i p, kRedirectPorts !! i = Some p → Standard.available n i p = false)
  ∧ ((∀ i, socket_ret n i ≠ kInvalidSocket) →
     (pick_callback_port (start n)).1
     = Ok (List.find (fun p => bind_ret n p =? 0) kRedirectPorts)).
Proof.
  split; [done |].
  destruct (pick_callback_port_loop_spec n kRedirectPorts 0 []) as (r & k & Hrun & Hr).
  unfold pick_callback_port, start. rewrite Hrun. cbn [fst Nat.add app].
  split; [by exists r, k |].
  split; [| split].
  - intros p. split.
    + intros [= ->]. destruct Hr as (i & _ & Hi). by exists i.
    + intros (i & Hi & Hav & Hbefore). destruct r as [p' |].
      * destruct Hr as (i' & _ & Hi' & Hav' & Hbefore'). cbn [Nat.add] in *.
        destruct (Nat.lt_trichotomy i i') as [Hlt | [-> | Hgt]].
        -- pose proof (Hbefore' i p Hlt Hi) as Hc. cbn [Nat.add] in Hc. congruence.
        -- congruence.
        -- pose proof (Hbefore i' p' Hgt Hi') as Hc. congruence.
      * destruct Hr as [_ Hnone]. pose proof (Hnone i p Hi) as Hc.
        cbn [Nat.add] in Hc. congruence.
  - split.
    + intros [= ->]. by destruct Hr as [_ Hnone].
    + intros Hnone. destruct r as [p |]; [| done].
      destruct Hr as (i & _ & Hi & Hav & _). cbn [Nat.add] in Hav.
      pose proof (Hnone i p Hi) as Hc. congruence.
  - intros Hsock. f_equal. symmetry. apply (find_bindable n kRedirectPorts 0 r Hsock).
    destruct r as [p |]; [| by destruct Hr].
    destruct Hr as (i & _ & Hr). by exists i.
Qed.

(** ** wait_for_callback_code *)

Lemma c_string_nul (d rest : list ascii) :
  c_string (d ++ "000"%char :: rest) = c_string d.
Proof.
  induction d as [| c d IH]; cbn [app c_string]; [done |].
  destruct (Ascii.eqb c "000"); [done | by rewrite IH].
Qed.

Lemma c_string_buffer (d : list ascii) :
  (length d ≤ 4095)%nat →
  c_string (<[ length d := "000"%char ]> (d ++ replicate (4096 - length d) "000"%char))
  = c_string d.
Proof.
  intros Hd. replace (4096 - length d)%nat with (S (4095 - length d)) by lia.
  rewrite insert_app_r_alt, Nat.sub_diag by lia. cbn [replicate insert list_insert].
  apply c_string_nul.
Qed.

Lemma find_from_lt (c : ascii) (s : list ascii) (k : nat) :
  find_from c 0 s = Some k → (k < length s)%nat.
Proof.
  unfold find_from. rewrite drop_0.
  destruct (find_char c s) as [j |] eqn:Hf; cbn [fmap option_fmap option_map]; [| done].
  intros [= <-]. destruct (find_char_Some _ _ _ Hf) as (a & b & -> & <- & _).
  rewrite length_app. cbn. lia.
Qed.

Lemma substr_0 (s : list ascii) (count : option nat) :
  substr s 0 count = Ok (match count with None => s | Some n => take n s end).
Proof. exact (substr_suffix [] s count). Qed.

(** Reading the request line never throws. *)
Lemma request_target_ok (req : list ascii) : ∃ target, request_target req = Ok target.
Proof.
  unfold request_target. rewrite substr_0. cbn [mbind result_bind].
  generalize (match find_str ["013"%char; "010"%char] req with
              | Some n => take n req
              | None => req
              end).
  intros first_line.
  destruct (find_from " " 0 first_line) as [fs |] eqn:Hfs; [| by eexists].
  destruct (find_from " " (succ_wrap (Some fs)) first_line) as [ss |]; [| by eexists].
  apply find_from_lt in Hfs. unfold substr.
  replace (length first_line <? fs + 1)%nat with false
    by (symmetry; apply Nat.ltb_ge; lia).
  by eexists.
Qed.

(** The code a received request leads to. *)
Lemma parse_request_recv (n : net) :
  let rd := match recv_ret n with
            | Some data => (Z.of_nat (length (take 4095 data)), take 4095 data)
            | None => (-1, [])
            end in
  parse_request rd.1 (rd.2 ++ replicate (4096 - length rd.2) "000"%char)
  = match Standard.request n with
    | Some req =>
        target ← request_target req;
        match target with
        | Some target => extract_code_from_callback_target target
        | None => Ok None
        end
    | None => Ok None
    end.
Proof.
  unfold Standard.request, parse_request.
  destruct (recv_ret n) as [data |]; cbn [fst snd]; [| done].
  assert (Hlen : (length (take 4095 data) ≤ 4095)%nat) by (rewrite length_take; lia).
  destruct (take 4095 data) as [| c d] eqn:Hd; [done |].
  rewrite bool_decide_eq_false_2 by done.
  replace (0 <? Z.of_nat (length (c :: d))) with true
    by (symmetry; apply Z.ltb_lt; cbn [length]; lia).
  cbv zeta. by rewrite Nat2Z.id, c_string_buffer.
Qed.

Lemma wait_for_callback_code_run (n : net) (port : Z) :
  socket_ret n 0 ≠ kInvalidSocket → bind_ret n port = 0 → listen_ret n = 0 →
  wait_for_callback_code port (start n)
  = if accept_ret n =? kInvalidSocket
    then (Ok None, World n 1 (Standard.refused_log (socket_ret n 0) port))
    else match match Standard.request n with
               | Some req =>
                   target ← request_target req;
                   match target with
                   | Some target => extract_code_from_callback_target target
                   | None => Ok None
                   end
               | None => Ok None
               end with
         | Ok code =>
             (Ok code, World n 1 (Standard.served_log (socket_ret n 0) (accept_ret n) port))
         | Throw e =>
             (Throw e,
              World n 1 [EvSocket (socket_ret n 0); EvSetReuseAddr (socket_ret n 0);
                         EvBind (socket_ret n 0) port; EvListen (socket_ret n 0) 1;
                         EvAccept (socket_ret n 0); EvRecv (accept_ret n) 4095])
         end.
Proof.
  intros Hsock Hbind Hlisten.
  rewrite <- parse_request_recv.
  unfold wait_for_callback_code, start, io_bind, sys_socket, sys_setsockopt_reuseaddr,
    bind_localhost_port, sys_listen, sys_accept, sys_recv, sys_send, close_socket,
    emit, io_ret, lift.
  cbn [os socket_calls log app].
  apply Z.eqb_neq in Hsock. rewrite Hsock. cbn [os socket_calls log app].
  rewrite Hbind. cbn [Z.eqb negb os socket_calls log app].
  rewrite Hlisten. cbn [Z.eqb negb os socket_calls log app].
  destruct (accept_ret n =? kInvalidSocket); [done |].
  cbn [os socket_calls log app].
  destruct (recv_ret n) as [data |]; cbn [fst snd];
    destruct (parse_request _ _); reflexivity.
Qed.

(** The claim as the specification words it (the response is still sent on an
    accept failure) fails: when [accept] returns no client the function
    closes the listening socket and returns, and nothing is sent. *)
Lemma wait_accept_failure_counterexample :
  let n := Net (fun _ => 3) (fun _ => 0) 0 kInvalidSocket None in
  wait_for_callback_code 2259 (start n)
  = (Ok None,
     World n 1 [EvSocket 3; EvSetReuseAddr 3; EvBind 3 2259; EvListen 3 1;
                EvAccept 3; EvClose 3])
  ∧ ¬ (∃ s, EvSend s response ∈ log (wait_for_callback_code 2259 (start n)).2).
Proof.
  intros n.
  assert (Hrun : wait_for_callback_code 2259 (start n)
                 = (Ok None,
                    World n 1 [EvSocket 3; EvSetReuseAddr 3; EvBind 3 2259; EvListen 3 1;
                               EvAccept 3; EvClose 3])) by (by vm_compute).
  split; [exact Hrun |].
  rewrite Hrun. cbn [snd log]. intros [s Hin].
  repeat (apply elem_of_cons in Hin as [Hin | Hin]; [discriminate |]).
  by apply elem_of_nil in Hin.
Qed.

(** C3, amended.  With the listening socket set up: when [accept] fails the
    function closes the listening socket and returns no code, and nothing is
    sent, there being no client.  When a client connected, every return goes
    through sending the fixed response, closing the client and closing the
    listening socket, in that order; and there is no code when nothing was
    received, when the request line has no target, when the target has no
    query, and when no segment of the query is a [code] with a value. *)
Theorem wait_for_callback_code_failure (n : net) (port : Z) :
  socket_ret n 0 ≠ kInvalidSocket → bind_ret n port = 0 → listen_ret n = 0 →
  let server := socket_ret n 0 in
  let client := accept_ret n in
  let run := wait_for_callback_code port (start n) in
  let served := (Ok None, World n 1 (Standard.served_log server client port)) in
  (client = kInvalidSocket →
     run = (Ok None, World n 1 (Standard.refused_log server port)))
  ∧ (client ≠ kInvalidSocket →
       (∀ code, run.1 = Ok code →
                run = (Ok code, World n 1 (Standard.served_log server client port)))
       ∧ (Standard.request n = None → run = served)
       ∧ (∀ req, Standard.request n = Some req →
                 request_target req = Ok None → run = served)
       ∧ (∀ req target, Standard.request n = Some req →
                        request_target req = Ok (Some target) →
                        "?"%char ∉ target → run = served)
       ∧ (∀ req path query,
            Standard.request n = Some req →
            request_target req = Ok (Some (path ++ "?"%char :: query)) →
            "?"%char ∉ path →
            List.find Standard.is_code_param (Standard.split_on "&" query) = None →
            run = served)).
Proof.
  intros Hsock Hbind Hlisten server client run served.
  subst run served server client.
  rewrite (wait_for_callback_code_run n port Hsock Hbind Hlisten).
  split.
  - intros ->. done.
  - intros Hclient%Z.eqb_neq. rewrite Hclient.
    split; [| split; [| split; [| split]]].
    + intros code. by destruct (match Standard.request n with Some _ => _ | None => _ end);
        cbn [fst]; intros [= ->].
    + by intros ->.
    + intros req -> ->. done.
    + intros req target -> -> Hq. cbn [mbind result_bind].
      by rewrite extract_code_no_query.
    + intros req path query -> -> Hpath Hfind. cbn [mbind result_bind].
      rewrite extract_code_spec by done. unfold Standard.first_code. by rewrite Hfind.
Qed.

Lemma wait_for_callback_code_failure_witness :
  let n := Net (fun _ => 3) (fun _ => 0) 0 4 (Some (str "GET /noquery HTTP/1.1")) in
  (socket_ret n 0 ≠ kInvalidSocket) ∧ bind_ret n 2259 = 0 ∧ listen_ret n = 0
  ∧ wait_for_callback_code 2259 (start n)
    = (Ok None, World n 1 (Standard.served_log 3 4 2259)).
Proof.
  intros n.
  assert (H1 : socket_ret n 0 ≠ kInvalidSocket) by done.
  split; [exact H1 |]. split; [reflexivity |]. split; [reflexivity |].
  assert (H2 : accept_ret n ≠ kInvalidSocket) by done.
  assert (H3 : "?"%char ∉ str "/noquery") by (by apply find_char_None).
  exact (proj1 (proj2 (proj2 (proj2
           (proj2 (wait_for_callback_code_failure n 2259 H1 eq_refl eq_refl) H2))))
         (str "GET /noquery HTTP/1.1") (str "/noquery") eq_refl eq_refl H3).
Defined.

(** ** url_decode *)

Lemma char_at_suffix (pre rest : list ascii) (j : nat) :
  char_at (pre ++ rest) (length pre + j) = char_at rest j.
Proof.
  unfold char_at. rewrite app_nth2 by lia. f_equal. lia.
Qed.

Lemma bind_app (r : result (list ascii)) (out x : list ascii) :
  (decoded ← (decoded ← r; Ok (x ++ decoded)); Ok (out ++ decoded))
  = (decoded ← r; Ok ((out ++ x) ++ decoded)).
Proof. destruct r; cbn [mbind result_bind]; [by rewrite app_assoc | done]. Qed.

(** [value.size()] iterations are enough for the loop of [url_decode]. *)
Lemma url_decode_loop_decode (fuel : nat) :
  ∀ (pre rest out : list ascii),
    (length rest ≤ fuel)%nat →
    url_decode_loop fuel (pre ++ rest) (length pre) out
    = (decoded ← decode rest; Ok (out ++ decoded)).
Proof.
  induction fuel as [| fuel IH]; intros pre rest out Hfuel.
  - destruct rest; [| cbn in Hfuel; lia]. cbn. by rewrite app_nil_r.
  - cbn [url_decode_loop]. destruct rest as [| c tl].
    { rewrite app_nil_r, Nat.ltb_irrefl. cbn. by rewrite app_nil_r. }
    replace (length pre <? length (pre ++ c :: tl))%nat with true
      by (symmetry; apply Nat.ltb_lt; rewrite length_app; cbn; lia).
    pose proof (char_at_suffix pre (c :: tl) 0) as Hc.
    rewrite Nat.add_0_r in Hc. rewrite Hc. cbn [char_at nth].
    assert (Hplain : ∀ x,
               url_decode_loop fuel (pre ++ c :: tl) (length pre + 1) (out ++ [x])
               = (decoded ← (decoded ← decode tl; Ok ([x] ++ decoded));
                  Ok (out ++ decoded))).
    { intros x. rewrite bind_app.
      replace (pre ++ c :: tl) with ((pre ++ [c]) ++ tl) by (by rewrite <- app_assoc).
      replace (length pre + 1)%nat with (length (pre ++ [c]))
        by (rewrite length_app; cbn; lia).
      apply IH. cbn in Hfuel. lia. }
    destruct tl as [| a [| b rest]].
    + replace (length pre + 2 <? length (pre ++ [c]))%nat with false
        by (symmetry; apply Nat.ltb_ge; rewrite length_app; cbn; lia).
      rewrite andb_false_r. cbn [decode]. destruct (Ascii.eqb c "+"); apply Hplain.
    + replace (length pre + 2 <? length (pre ++ [c; a]))%nat with false
        by (symmetry; apply Nat.ltb_ge; rewrite length_app; cbn; lia).
      rewrite andb_false_r. cbn [decode].
      change (decode [a]) with (decode (a :: [])).
      destruct (Ascii.eqb c "+"); apply Hplain.
    + replace (length pre + 2 <? length (pre ++ c :: a :: b :: rest))%nat with true
        by (symmetry; apply Nat.ltb_lt; rewrite length_app; cbn; lia).
      rewrite andb_true_r.
      change (decode (c :: a :: b :: rest))
        with (if Ascii.eqb c "%"
              then n ← stoi_16 [a; b]; decoded ← decode rest; Ok (to_char n :: decoded)
              else decoded ← decode (a :: b :: rest);
                   Ok ((if Ascii.eqb c "+" then " "%char else c) :: decoded)).
      destruct (Ascii.eqb c "%").
      * replace (pre ++ c :: a :: b :: rest) with ((pre ++ [c]) ++ a :: b :: rest)
          by (by rewrite <- app_assoc).
        replace (length pre + 1)%nat with (length (pre ++ [c]))
          by (rewrite length_app; cbn; lia).
        rewrite substr_suffix. cbn [take mbind result_bind]. rewrite take_0.
        destruct (stoi_16 [a; b]) as [n | e]; cbn [mbind result_bind]; [| done].
        replace ((pre ++ [c]) ++ a :: b :: rest) with ((pre ++ [c; a; b]) ++ rest)
          by (by rewrite <- !app_assoc).
        replace (length pre + 2 + 1)%nat with (length (pre ++ [c; a; b]))
          by (rewrite length_app; cbn; lia).
        rewrite IH by (cbn in Hfuel; lia).
        destruct (decode rest); cbn [mbind result_bind]; [| done].
        by rewrite <- app_assoc.
      * destruct (Ascii.eqb c "+"); apply Hplain.
Qed.

Lemma url_decode_decode (value : list ascii) : url_decode value = decode value.
Proof.
  unfold url_decode.
  pose proof (url_decode_loop_decode (length value) [] value [] (le_n _)) as Hloop.
  cbn [app length] in Hloop. rewrite Hloop.
  by destruct (decode value).
Qed.

(** Two hexadecimal digits are read as the byte they write. *)
Lemma stoi_16_hex (a b : ascii) (x y : Z) :
  hex_value a = Some x → hex_value b = Some y → stoi_16 [a; b] = Ok (16 * x + y).
Proof.
  intros Ha Hb.
  assert (Hx : 0 ≤ x < 16 ∧ isspace a = false ∧ a ≠ "+"%char ∧ a ≠ "-"%char).
  { revert Ha. unfold hex_value, isspace, between.
    destruct a as [[] [] [] [] [] [] [] []]; vm_compute; intros [= <-]; done. }
  assert (Hy : 0 ≤ y < 16).
  { revert Hb. unfold hex_value, between.
    destruct b as [[] [] [] [] [] [] [] []]; vm_compute; intros [= <-]; done. }
  destruct Hx as (Hx & Hsp & Hplus & Hminus).
  unfold stoi_16. cbn [skip_spaces]. rewrite Hsp.
  assert (Hsign : match a :: [b] with
                  | "+"%char :: s' => (false, s')
                  | "-"%char :: s' => (true, s')
                  | _ => (false, a :: [b])
                  end = (false, [a; b])).
  { destruct a as [[] [] [] [] [] [] [] []]; try reflexivity; congruence. }
  rewrite Hsign.
  assert (Hprefix : match [a; b] with
                    | "0"%char :: x0 :: d :: s' =>
                        if (Ascii.eqb x0 "x" || Ascii.eqb x0 "X")
                           && bool_decide (is_Some (hex_value d))
                        then d :: s' else [a; b]
                    | _ => [a; b]
                    end = [a; b]).
  { destruct a as [[] [] [] [] [] [] [] []]; reflexivity. }
  rewrite Hprefix.
  rewrite bool_decide_eq_true_2 by (rewrite Ha; eauto).
  cbn [hex_digits]. rewrite Ha, Hb.
  replace ((0 * 16 + x) * 16 + y) with (16 * x + y) by lia.
  replace ((- 2 ^ 31 <=? 16 * x + y) && (16 * x + y <=? 2 ^ 31 - 1)) with true; [done |].
  symmetry. apply andb_true_intro. split; apply Z.leb_le; lia.
Qed.

Lemma well_escaped_decode (s : list ascii) :
  well_escaped s = true → ∃ decoded, decode s = Ok decoded.
Proof.
  cut (∀ n s, (length s ≤ n)%nat → well_escaped s = true → ∃ decoded, decode s = Ok decoded).
  { intros H. by apply (H (length s)). }
  clear s. induction n as [| n IH]; intros s Hn Hs.
  - destruct s; [by eexists | cbn in Hn; lia].
  - destruct s as [| c tl]; [by eexists |].
    assert (Hplain : well_escaped tl = true →
              ∃ decoded, (decoded ← decode tl;
                          Ok ((if Ascii.eqb c "+" then " "%char else c) :: decoded))
                         = Ok decoded).
    { intros Htl. destruct (IH tl) as [d Hd]; [cbn in Hn; lia | done |].
      rewrite Hd. by eexists. }
    destruct tl as [| a [| b rest]]; [by apply Hplain | by apply Hplain |].
    change (decode (c :: a :: b :: rest))
      with (if Ascii.eqb c "%"
            then n ← stoi_16 [a; b]; decoded ← decode rest; Ok (to_char n :: decoded)
            else decoded ← decode (a :: b :: rest);
                 Ok ((if Ascii.eqb c "+" then " "%char else c) :: decoded)).
    change (well_escaped (c :: a :: b :: rest))
      with (if Ascii.eqb c "%"
            then bool_decide (is_Some (hex_value a)) && bool_decide (is_Some (hex_value b))
                 && well_escaped rest
            else well_escaped (a :: b :: rest)) in Hs.
    destruct (Ascii.eqb c "%"); [| by apply Hplain].
    apply andb_prop in Hs as [[Ha%bool_decide_eq_true_1 Hb%bool_decide_eq_true_1]%andb_prop Hrest].
    destruct Ha as [x Ha], Hb as [y Hb].
    rewrite (stoi_16_hex a b x y Ha Hb). cbn [mbind result_bind].
    destruct (IH rest) as [d Hd]; [cbn in Hn; lia | done |].
    rewrite Hd. by eexists.
Qed.

(** C2, where the source fails.  The loop of [url_decode] is the decoding
    [decode], and on a text whose escapes are all [%] and two hexadecimal
    digits it returns: an escape gives the byte it writes, a [+] a space, and
    a [%] cut short by the end of the input stays as it is.  But two
    characters that are not hexadecimal digits after [%] make [std::stoi]
    throw; the exception leaves [url_decode] and
    [extract_code_from_callback_target], and in [wait_for_callback_code] it
    passes over the response and both [close_socket] calls. *)
Theorem url_decode_throws_on_non_hex :
  (∀ value, url_decode value = decode value)
  ∧ (∀ value, well_escaped value = true → ∃ decoded, url_decode value = Ok decoded)
  ∧ (∀ a b x y rest,
       hex_value a = Some x → hex_value b = Some y →
       url_decode ("%"%char :: a :: b :: rest)
       = (decoded ← url_decode rest; Ok (to_char (16 * x + y) :: decoded)))
  ∧ url_decode (str "a%2Fb+c%4") = Ok (str "a/b c%4")
  ∧ url_decode (str "%zz") = Throw invalid_argument
  ∧ extract_code_from_callback_target (str "/?code=%zz") = Throw invalid_argument
  ∧ let n := Net (fun _ => 3) (fun _ => 0) 0 4 (Some (str "GET /?code=%zz HTTP/1.1")) in
    wait_for_callback_code 2259 (start n)
    = (Throw invalid_argument,
       World n 1 [EvSocket 3; EvSetReuseAddr 3; EvBind 3 2259; EvListen 3 1;
                  EvAccept 3; EvRecv 4 4095]).
Proof.
  split; [apply url_decode_decode |].
  split.
  { intros value Hv. rewrite url_decode_decode. by apply well_escaped_decode. }
  split.
  { intros a b x y rest Ha Hb. rewrite !url_decode_decode.
    change (decode ("%"%char :: a :: b :: rest))
      with (n ← stoi_16 [a; b]; decoded ← decode rest; Ok (to_char n :: decoded)).
    by rewrite (stoi_16_hex a b x y Ha Hb). }
  by vm_compute.
Qed.

(** * Further properties of the source *)

(** ** Percent-encoding and decoding together *)

Lemma url_encode_fold (raw acc : list ascii) :
  fold_left (fun encoded ch =>
               let c := uchar ch in
               if unreserved c then encoded ++ [ch]
               else encoded ++ ["%"%char] ++ setw_setfill 2 "0" (upper_hex c))
            raw acc
  = acc ++ url_encode raw.
Proof.
  unfold url_encode. revert acc. induction raw as [| ch raw IH]; intros acc.
  - cbn. by rewrite app_nil_r.
  - cbn [fold_left]. rewrite IH. cbv zeta.
    destruct (unreserved (uchar ch)); rewrite (IH ([] ++ _)); cbn [app];
      by rewrite <- !app_assoc.
Qed.

Lemma url_encode_cons (ch : ascii) (raw : list ascii) :
  url_encode (ch :: raw)
  = (if unreserved (uchar ch) then [ch]
     else "%"%char :: setw_setfill 2 "0" (upper_hex (uchar ch)))
    ++ url_encode raw.
Proof.
  unfold url_encode at 1. cbn [fold_left]. rewrite url_encode_fold. cbv zeta.
  by destruct (unreserved (uchar ch)).
Qed.

Lemma escape_digits (c : Z) :
  is_byte c →
  setw_setfill 2 "0" (upper_hex c) = [upper_hex_digit (c / 16); upper_hex_digit (c mod 16)].
Proof.
  unfold is_byte, setw_setfill, upper_hex. intros Hc.
  destruct (Z.ltb_spec c 16) as [Hlt | Hge]; cbn [length Nat.sub replicate app].
  - rewrite Z.div_small, Z.mod_small by lia. reflexivity.
  - reflexivity.
Qed.

Lemma hex_value_upper_hex_digit (n : Z) :
  0 ≤ n < 16 → hex_value (upper_hex_digit n) = Some n.
Proof.
  intros Hn.
  assert (Hc : n = 0 ∨ n = 1 ∨ n = 2 ∨ n = 3 ∨ n = 4 ∨ n = 5 ∨ n = 6 ∨ n = 7 ∨ n = 8
               ∨ n = 9 ∨ n = 10 ∨ n = 11 ∨ n = 12 ∨ n = 13 ∨ n = 14 ∨ n = 15) by lia.
  repeat (destruct Hc as [-> | Hc]; [reflexivity |]). by subst.
Qed.

Lemma to_char_uchar (ch : ascii) : to_char (uchar ch) = ch.
Proof.
  unfold to_char, u8. pose proof (uchar_byte ch) as Hb. unfold is_byte in Hb.
  rewrite Z.mod_small by (change (2 ^ 8) with 256; lia).
  unfold uchar. by rewrite N2Z.id, ascii_N_embedding.
Qed.

Lemma unreserved_not_special (ch : ascii) :
  unreserved (uchar ch) = true →
  Ascii.eqb ch "%" = false ∧ Ascii.eqb ch "+" = false ∧ ch ≠ "&"%char ∧ ch ≠ "="%char
  ∧ ch ≠ "?"%char ∧ ch ≠ " "%char.
Proof.
  intros Hu.
  assert (H : ∀ c : ascii, unreserved (uchar c) = false → ch ≠ c) by (intros c Hc ->; congruence).
  repeat split; try (apply H; reflexivity);
    apply Ascii.eqb_neq, H; reflexivity.
Qed.

Lemma decode_plain (c : ascii) (tl : list ascii) :
  Ascii.eqb c "%" = false →
  decode (c :: tl)
  = (decoded ← decode tl; Ok ((if Ascii.eqb c "+" then " "%char else c) :: decoded)).
Proof.
  intros Hc. destruct tl as [| a [| b rest]]; cbn [decode]; rewrite ?Hc; reflexivity.
Qed.

Lemma decode_escape (a b : ascii) (rest : list ascii) :
  decode ("%"%char :: a :: b :: rest)
  = (n ← stoi_16 [a; b]; decoded ← decode rest; Ok (to_char n :: decoded)).
Proof. reflexivity. Qed.

Lemma decode_url_encode (raw : list ascii) : decode (url_encode raw) = Ok raw.
Proof.
  induction raw as [| ch raw IH]; [done |].
  rewrite url_encode_cons. destruct (unreserved (uchar ch)) eqn:Hu.
  - destruct (unreserved_not_special ch Hu) as (Hpct & Hplus & _).
    cbn [app]. rewrite decode_plain, IH, Hplus by done. reflexivity.
  - pose proof (uchar_byte ch) as Hb.
    rewrite escape_digits by done. cbn [app]. rewrite decode_escape.
    unfold is_byte in Hb.
    rewrite (stoi_16_hex _ _ (uchar ch / 16) (uchar ch mod 16));
      try (apply hex_value_upper_hex_digit; Z.div_mod_to_equations; lia).
    cbn [mbind result_bind]. rewrite IH. cbn [mbind result_bind].
    replace (16 * (uchar ch / 16) + uchar ch mod 16) with (uchar ch)
      by (Z.div_mod_to_equations; lia).
    by rewrite to_char_uchar.
Qed.

Lemma url_decode_encoded (raw : list ascii) : url_decode (url_encode raw) = Ok raw.
Proof. rewrite url_decode_decode. apply decode_url_encode. Qed.

(** X1.  Percent-decoding undoes percent-encoding: for every string,
    [url_decode (url_encode raw)] returns [raw], and in particular does not
    throw; so [url_encode] loses nothing. *)
Theorem url_decode_url_encode (raw : list ascii) :
  url_decode (url_encode raw) = Ok raw
  ∧ (∀ other, url_encode raw = url_encode other → raw = other).
Proof.
  split; [apply url_decode_encoded |].
  intros other Heq. pose proof (url_decode_encoded raw) as H1.
  rewrite Heq, url_decode_encoded in H1. congruence.
Qed.


(** The bytes that [url_encode] escapes. *)
Lemma length_url_encode (raw : list ascii) :
  length (url_encode raw)
  = (length raw + 2 * length (List.filter (fun ch => negb (unreserved (uchar ch))) raw))%nat.
Proof.
  induction raw as [| ch raw IH]; [done |].
  rewrite url_encode_cons, length_app, IH. cbn [List.filter length].
  destruct (unreserved (uchar ch)); cbn [negb length].
  - lia.
  - rewrite escape_digits by apply uchar_byte. cbn [length]. lia.
Qed.


(** ** Digests and the tokens made of them *)

Lemma length_sha256 (input : list ascii) : length (sha256 input) = 32%nat.
Proof.
  rewrite sha256_refines. unfold Standard.SHA256, Standard.words.
  cbn [map concat]. rewrite !length_app, !length_be_bytes. reflexivity.
Qed.

Lemma base64url_alphabet_unreserved :
  Forall (fun c => unreserved (uchar c) = true) Standard.base64url_alphabet.
Proof.
  exact (bool_decide_eq_true_1
           (Forall (fun c => unreserved (uchar c) = true) Standard.base64url_alphabet)
           eq_refl).
Qed.

Lemma url_encode_unreserved (s : list ascii) :
  Forall (fun c => unreserved (uchar c) = true) s → url_encode s = s.
Proof.
  induction s as [| c s IH]; intros Hs; [done |].
  apply Forall_cons in Hs as [Hc Hs].
  rewrite url_encode_cons, Hc, IH by done. reflexivity.
Qed.

Lemma digest_token (input : list ascii) :
  length (base64url (sha256 input)) = 43%nat
  ∧ Forall (fun c => unreserved (uchar c) = true) (base64url (sha256 input)).
Proof.
  rewrite base64url_refines by apply sha256_bytes.
  pose proof (base64url_in_alphabet (sha256 input)) as Hin.
  split; [by rewrite length_base64url, length_sha256 |].
  pose proof base64url_alphabet_unreserved as Hu. rewrite Forall_forall in Hu.
  eapply Forall_impl; [exact Hin |]. intros c Hc. by apply Hu.
Qed.

(** X3.  A digest has 32 bytes, so its base64url encoding has 43 characters,
    all of them letters, digits, [-] or [_]: this is the form of the device
    id, of every nonce and of every generated challenge, and [url_encode]
    leaves such a text as it is. *)
Theorem digest_tokens (input : list ascii) (now : Z) :
  length (sha256 input) = 32%nat
  ∧ Forall is_byte (sha256 input)
  ∧ length (base64url (sha256 input)) = 43%nat
  ∧ url_encode (base64url (sha256 input)) = base64url (sha256 input)
  ∧ length (generate_nonce now) = 43%nat
  ∧ url_encode (generate_nonce now) = generate_nonce now
  ∧ (∀ {rng} (dist : Z → Z → rng → Z * rng) (g : rng),
       length (challenge (fst (make_pkce_challenge dist g))) = 43%nat
       ∧ url_encode (challenge (fst (make_pkce_challenge dist g)))
         = challenge (fst (make_pkce_challenge dist g))).
Proof.
  split; [apply length_sha256 |]. split; [apply sha256_bytes |].
  destruct (digest_token input) as [Hlen Hu].
  split; [exact Hlen |]. split; [by apply url_encode_unreserved |].
  unfold generate_nonce.
  destruct (digest_token (to_string now ++ str ":nonce")) as [Hlen' Hu'].
  split; [exact Hlen' |]. split; [by apply url_encode_unreserved |].
  intros rng dist g. unfold make_pkce_challenge.
  destruct (random_alnum dist 64 g) as [v g']. cbn [fst challenge].
  destruct (digest_token v) as [Hlen'' Hu''].
  split; [exact Hlen'' | by apply url_encode_unreserved].
Qed.

(** ** Reading the authorization URL back *)

Lemma map_eq_Forall {A B} (f g : A → B) (l : list A) :
  map f l = map g l → Forall (fun x => f x = g x) l.
Proof.
  induction l as [| x l IH]; cbn [map]; intros Heq; [done |].
  injection Heq as Hx Hl. constructor; auto.
Qed.

(** X4.  What went into the URL comes out of it: for every input of
    [build_auth_url], looking a parameter up by its key in the query and
    percent-decoding it returns the value that was passed in; the challenge,
    the provider id and the redirect address among them. *)
Theorem build_auth_url_round_trip (now : Z) (pkce : PkceChallenge) (port : Z)
    (provider : LoginProvider) :
  let query := drop (length Standard.authorization_endpoint)
                    (build_auth_url now pkce port provider) in
  Forall (fun kv => ∃ encoded, Standard.query_param kv.1 query = Some encoded
                               ∧ url_decode encoded = Ok kv.2)
         (Standard.authorization_params device_id (generate_nonce now)
            (challenge pkce) (idp_id provider) port)
  ∧ (∃ encoded, Standard.query_param "code_challenge" query = Some encoded
                ∧ url_decode encoded = Ok (challenge pkce))
  ∧ (∃ encoded, Standard.query_param "idp_id" query = Some encoded
                ∧ url_decode encoded = Ok (idp_id provider))
  ∧ (∃ encoded, Standard.query_param "redirect_uri" query = Some encoded
                ∧ url_decode encoded = Ok (str "http://localhost:" ++ to_string port)).
Proof.
  intros query.
  assert (Hall : Forall (fun kv => ∃ encoded, Standard.query_param kv.1 query = Some encoded
                                              ∧ url_decode encoded = Ok kv.2)
                   (Standard.authorization_params device_id (generate_nonce now)
                      (challenge pkce) (idp_id provider) port)).
  { pose proof (map_eq_Forall _ _ _ (query_param_lookup now pkce port provider)) as H.
    eapply Forall_impl; [exact H |]. intros kv Hkv. cbv beta in Hkv.
    exists (url_encode kv.2). split; [exact Hkv | apply url_decode_encoded]. }
  split; [exact Hall |].
  rewrite Forall_forall in Hall.
  repeat split.
  - apply (Hall ("code_challenge"%string, challenge pkce)).
    apply list_elem_of_lookup. by exists 8%nat.
  - apply (Hall ("idp_id"%string, idp_id provider)).
    apply list_elem_of_lookup. by exists 10%nat.
  - apply (Hall ("redirect_uri"%string, str "http://localhost:" ++ to_string port)).
    apply list_elem_of_lookup. by exists 4%nat.
Qed.

(** ** A code sent is a code received *)

Lemma url_encode_nonempty (v : list ascii) : v ≠ [] → url_encode v ≠ [].
Proof.
  intros Hv Henc%(f_equal length). rewrite length_url_encode in Henc.
  destruct v; [done | cbn in Henc; lia].
Qed.

Lemma code_segment (v : list ascii) :
  v ≠ [] →
  Standard.is_code_param (str "code=" ++ url_encode v) = true
  ∧ "&"%char ∉ str "code=" ++ url_encode v.
Proof.
  intros Hv. split.
  - unfold Standard.is_code_param. apply andb_true_intro. split; [done |].
    apply Nat.ltb_lt. rewrite length_app.
    pose proof (url_encode_nonempty v Hv) as Hne.
    destruct (url_encode v); [done | cbn; lia].
  - rewrite not_elem_of_app. split; [by apply find_char_None |].
    by apply url_encode_excludes.
Qed.

Lemma find_app_skip {A} (p : A → bool) (before rest : list A) :
  Forall (fun x => p x = false) before → List.find p (before ++ rest) = List.find p rest.
Proof.
  induction before as [| x before IH]; intros Hb; [done |].
  apply Forall_cons in Hb as [Hx Hb]. cbn [app List.find]. rewrite Hx. by apply IH.
Qed.

(** X5.  A query that carries [code=] followed by the percent-encoding of a
    value that is not empty gives that value back, whatever the path before
    the [?], whatever segments that are not such a [code] come before it
    ([state] for one), and whatever comes after it. *)
Theorem extract_code_of_encoded (path v : list ascii) (before after : list (list ascii)) :
  ("?"%char ∉ path) → v ≠ [] →
  Forall (fun seg => "&"%char ∉ seg) (before ++ after) →
  Forall (fun seg => Standard.is_code_param seg = false) before →
  extract_code_from_callback_target
    (path ++ "?"%char
          :: Standard.join "&" (before ++ [str "code=" ++ url_encode v] ++ after))
  = Ok (Some v).
Proof.
  intros Hpath Hv Hamp Hbefore.
  destruct (code_segment v Hv) as [Hsel Hseg].
  apply Forall_app in Hamp as [Hamp1 Hamp2].
  rewrite extract_code_spec, first_code_split_join by done
    || (repeat apply Forall_app_2; [done | by constructor | done]).
  unfold Standard.first_code. rewrite find_app_skip by done.
  cbn [app List.find]. rewrite Hsel.
  rewrite drop_app_length'; [| done].
  rewrite url_decode_encoded. reflexivity.
Qed.

Lemma extract_code_of_encoded_witness :
  ("?"%char ∉ str "/callback") ∧ str "a/b c" ≠ []
  ∧ extract_code_from_callback_target
      (str "/callback" ++ "?"%char
           :: Standard.join "&" ([str "state=xyz"; str "code="]
                                   ++ [str "code=" ++ url_encode (str "a/b c")]
                                   ++ [str "code=later"]))
    = Ok (Some (str "a/b c")).
Proof.
  assert (H1 : "?"%char ∉ str "/callback") by (by apply find_char_None).
  assert (H2 : str "a/b c" ≠ []) by done.
  assert (H3 : Forall (fun seg => "&"%char ∉ seg)
                 ([str "state=xyz"; str "code="] ++ [str "code=later"]))
    by (repeat constructor; by apply find_char_None).
  assert (H4 : Forall (fun seg => Standard.is_code_param seg = false)
                 [str "state=xyz"; str "code="]) by (by repeat constructor).
  split; [exact H1 |]. split; [exact H2 |].
  exact (extract_code_of_encoded (str "/callback") (str "a/b c")
           [str "state=xyz"; str "code="] [str "code=later"] H1 H2 H3 H4).
Defined.

(** ** The request line *)

Lemma find_str_char (c : ascii) (pat s : list ascii) (k : nat) :
  find_str (c :: pat) s = Some k → s !! k = Some c.
Proof.
  revert k. induction s as [| x s IH]; intros k; cbn [find_str starts_with]; [done |].
  destruct (Ascii.eqb_spec c x) as [-> | Hne]; cbn [andb].
  - destruct (starts_with pat s).
    + by intros [= <-].
    + destruct (find_str (x :: pat) s) as [j |] eqn:Hf;
        cbn [fmap option_fmap option_map]; [| done].
      intros [= <-]. by apply IH.
  - destruct (find_str (c :: pat) s) as [j |] eqn:Hf;
      cbn [fmap option_fmap option_map]; [| done].
    intros [= <-]. by apply IH.
Qed.

(** The first line of a request that starts with [head] and has no carriage
    return in [head] starts with [head] too. *)
Lemma first_line_head (head rest : list ascii) :
  "013"%char ∉ head →
  ∃ rest', match find_str ["013"; "010"]%char (head ++ rest) with
           | Some n => take n (head ++ rest)
           | None => head ++ rest
           end = head ++ rest'.
Proof.
  intros Hcr. destruct (find_str _ _) as [k |] eqn:Hf; [| by exists rest].
  apply find_str_char in Hf.
  destruct (Nat.lt_ge_cases k (length head)) as [Hlt | Hge].
  - rewrite lookup_app_l in Hf by done. apply list_elem_of_lookup_2 in Hf. done.
  - exists (take (k - length head) rest). by rewrite take_app_ge.
Qed.

Lemma request_target_head (method target rest : list ascii) :
  " "%char ∉ method → " "%char ∉ target →
  "013"%char ∉ method → "013"%char ∉ target →
  request_target (method ++ " "%char :: target ++ " "%char :: rest) = Ok (Some target).
Proof.
  intros Hm Ht Hcm Hct.
  unfold request_target. rewrite substr_0. cbn [mbind result_bind].
  destruct (first_line_head (method ++ " "%char :: target ++ [" "%char]) rest) as [rest' Hl].
  { rewrite not_elem_of_app, not_elem_of_cons, not_elem_of_app, not_elem_of_cons.
    repeat split; try done. apply not_elem_of_nil. }
  rewrite <- !app_assoc in Hl. cbn [app] in Hl. rewrite <- !app_assoc in Hl.
  cbn [app] in Hl. rewrite Hl.
  assert (Hfs : find_from " " 0 (method ++ " "%char :: target ++ " "%char :: rest')
                = Some (length method)).
  { unfold find_from. by rewrite drop_0, find_char_app. }
  rewrite !Hfs. cbn [succ_wrap].
  replace (method ++ " "%char :: target ++ " "%char :: rest')
    with ((method ++ [" "%char]) ++ target ++ " "%char :: rest')
    by (by rewrite <- app_assoc).
  replace (S (length method)) with (length (method ++ [" "%char]))
    by (rewrite length_app; cbn; lia).
  rewrite find_from_suffix, find_char_app by done.
  cbn [fmap option_fmap option_map].
  replace (length method + 1)%nat with (length (method ++ [" "%char]))
    by (rewrite length_app; cbn; lia).
  rewrite substr_suffix. cbn [mbind result_bind].
  replace (length (method ++ [" "%char]) + length target - length method - 1)%nat
    with (length target) by (rewrite length_app; cbn; lia).
  by rewrite take_app_length.
Qed.

Lemma find_str_crlf (line rest : list ascii) :
  "013"%char ∉ line →
  find_str ["013"; "010"]%char line = None
  ∧ find_str ["013"; "010"]%char (line ++ "013"%char :: "010"%char :: rest)
    = Some (length line).
Proof.
  induction line as [| x line IH]; intros Hcr.
  - split; [done |]. cbn [app find_str starts_with]. by rewrite !Ascii.eqb_refl.
  - apply not_elem_of_cons in Hcr as [Hx Hcr]. destruct (IH Hcr) as [IH1 IH2].
    cbn [app find_str starts_with length].
    destruct (Ascii.eqb_spec "013"%char x) as [<- | _]; [done |]. cbn [andb].
    by rewrite IH1, IH2.
Qed.

Lemma no_space_no_target (line : list ascii) :
  " "%char ∉ line →
  match find_from " " 0 line, find_from " " (succ_wrap (find_from " " 0 line)) line with
  | Some fs, Some ss =>
      target ← substr line (fs + 1) (Some (ss - fs - 1)%nat); Ok (Some target)
  | _, _ => Ok None
  end = Ok None.
Proof.
  intros Hsp. unfold find_from at 1 2. rewrite drop_0.
  apply find_char_None in Hsp. by rewrite Hsp.
Qed.

(** X6.  The request line is read to its first CR LF, and what follows that
    does not matter; a line [method target rest] whose method and target
    hold no space gives the target between its first two spaces; a request
    without a space in its first line gives no target; and reading the line
    never throws. *)
Theorem request_target_spec (method target rest line more : list ascii) :
  " "%char ∉ method → " "%char ∉ target →
  "013"%char ∉ method → "013"%char ∉ target → "013"%char ∉ line →
  request_target (method ++ " "%char :: target ++ " "%char :: rest) = Ok (Some target)
  ∧ request_target (line ++ "013"%char :: "010"%char :: more) = request_target line
  ∧ (" "%char ∉ line → request_target line = Ok None)
  ∧ (∀ req, ∃ target', request_target req = Ok target').
Proof.
  intros Hm Ht Hcm Hct Hline.
  split; [by apply request_target_head |].
  destruct (find_str_crlf line more Hline) as [Hnone Hsome].
  assert (Heq : request_target (line ++ "013"%char :: "010"%char :: more)
                = request_target line).
  { unfold request_target. rewrite !substr_0, Hnone, Hsome.
    by rewrite take_app_length. }
  split; [exact Heq |]. split; [| apply request_target_ok].
  intros Hsp. unfold request_target. rewrite substr_0, Hnone. cbn [mbind result_bind].
  by apply no_space_no_target.
Qed.

Lemma request_target_spec_witness :
  (" "%char ∉ str "GET") ∧ (" "%char ∉ str "/?code=abc")
  ∧ ("013"%char ∉ str "GET") ∧ ("013"%char ∉ str "/?code=abc")
  ∧ ("013"%char ∉ str "GET /?code=abc HTTP/1.1")
  ∧ request_target (str "GET" ++ " "%char :: str "/?code=abc" ++ " "%char :: str "HTTP/1.1")
    = Ok (Some (str "/?code=abc")).
Proof.
  assert (H1 : " "%char ∉ str "GET") by (by apply find_char_None).
  assert (H2 : " "%char ∉ str "/?code=abc") by (by apply find_char_None).
  assert (H3 : "013"%char ∉ str "GET") by (by apply find_char_None).
  assert (H4 : "013"%char ∉ str "/?code=abc") by (by apply find_char_None).
  assert (H5 : "013"%char ∉ str "GET /?code=abc HTTP/1.1") by (by apply find_char_None).
  repeat (split; [assumption |]).
  exact (proj1 (request_target_spec (str "GET") (str "/?code=abc") (str "HTTP/1.1")
                  (str "GET /?code=abc HTTP/1.1") [] H1 H2 H3 H4 H5)).
Defined.

(** ** wait_for_callback_code: the paths through it *)

(** X7.  When the listener is set up and a client sends a request line
    [method target ...], the target goes to
    [extract_code_from_callback_target]; whatever that returns is returned,
    after the response was sent and both sockets were closed.  So the code
    that the browser sends percent-encoded comes back decoded. *)
Theorem wait_for_callback_code_returns (n : net) (port : Z)
    (method target rest : list ascii) (code : option (list ascii)) :
  socket_ret n 0 ≠ kInvalidSocket → bind_ret n port = 0 → listen_ret n = 0 →
  accept_ret n ≠ kInvalidSocket →
  Standard.request n = Some (method ++ " "%char :: target ++ " "%char :: rest) →
  " "%char ∉ method → " "%char ∉ target →
  "013"%char ∉ method → "013"%char ∉ target →
  extract_code_from_callback_target target = Ok code →
  wait_for_callback_code port (start n)
  = (Ok code, World n 1 (Standard.served_log (socket_ret n 0) (accept_ret n) port)).
Proof.
  intros Hsock Hbind Hlisten Hclient%Z.eqb_neq Hreq Hm Ht Hcm Hct Hcode.
  rewrite (wait_for_callback_code_run n port Hsock Hbind Hlisten), Hclient, Hreq.
  rewrite request_target_head by done. cbn [mbind result_bind]. by rewrite Hcode.
Qed.

Lemma wait_for_callback_code_returns_witness :
  let n := Net (fun _ => 3) (fun _ => 0) 0 4
               (Some (str "GET /?state=s&code=abc%2F1%20x HTTP/1.1" ++ ["013"; "010"]%char
                        ++ str "Host: localhost:2259" ++ ["013"; "010"; "013"; "010"]%char)) in
  wait_for_callback_code 2259 (start n)
  = (Ok (Some (str "abc/1 x")), World n 1 (Standard.served_log 3 4 2259)).
Proof.
  intros n.
  assert (H1 : socket_ret n 0 ≠ kInvalidSocket) by done.
  assert (H2 : accept_ret n ≠ kInvalidSocket) by done.
  assert (H3 : " "%char ∉ str "GET") by (by apply find_char_None).
  assert (H4 : " "%char ∉ str "/?state=s&code=abc%2F1%20x") by (by apply find_char_None).
  assert (H5 : "013"%char ∉ str "GET") by (by apply find_char_None).
  assert (H6 : "013"%char ∉ str "/?state=s&code=abc%2F1%20x") by (by apply find_char_None).
  exact (wait_for_callback_code_returns n 2259 (str "GET") (str "/?state=s&code=abc%2F1%20x")
           (str "HTTP/1.1" ++ ["013"; "010"]%char
              ++ str "Host: localhost:2259" ++ ["013"; "010"; "013"; "010"]%char)
           (Some (str "abc/1 x")) H1 eq_refl eq_refl H2 eq_refl H3 H4 H5 H6 eq_refl).
Defined.

(** X8.  The ways [wait_for_callback_code] ends without a client: when
    [socket] fails nothing else is asked of the system; when [bind] fails the
    socket is closed without [listen]; when [listen] fails it is closed
    without [accept].  In each case there is no code, and the others of the
    five system calls are not made. *)
Theorem wait_for_callback_code_transport (n : net) (port : Z) :
  let s := socket_ret n 0 in
  let run := wait_for_callback_code port (start n) in
  (s = kInvalidSocket → run = (Ok None, World n 1 [EvSocket s]))
  ∧ (s ≠ kInvalidSocket → bind_ret n port ≠ 0 →
     run = (Ok None, World n 1 [EvSocket s; EvSetReuseAddr s; EvBind s port; EvClose s]))
  ∧ (s ≠ kInvalidSocket → bind_ret n port = 0 → listen_ret n ≠ 0 →
     run = (Ok None,
            World n 1 [EvSocket s; EvSetReuseAddr s; EvBind s port; EvListen s 1;
                       EvClose s])).
Proof.
  intros s run. subst s run.
  unfold wait_for_callback_code, start, io_bind, sys_socket, sys_setsockopt_reuseaddr,
    bind_localhost_port, sys_listen, sys_accept, close_socket, emit, io_ret.
  cbn [os socket_calls log app].
  repeat split.
  - intros ->. reflexivity.
  - intros Hs%Z.eqb_neq Hb%Z.eqb_neq. rewrite Hs. cbn [os socket_calls log app].
    rewrite Hb. reflexivity.
  - intros Hs%Z.eqb_neq Hb Hl%Z.eqb_neq. rewrite Hs. cbn [os socket_calls log app].
    rewrite Hb. cbn [Z.eqb negb os socket_calls log app]. rewrite Hl. reflexivity.
Qed.

(** ** rotr *)

Lemma testbit_u32_high (x i : Z) : 0 ≤ x < 2 ^ 32 → 32 ≤ i → Z.testbit x i = false.
Proof.
  intros Hx Hi.
  apply (proj1 (Z.bounded_iff_bits_nonneg' 32 x ltac:(lia) (proj1 Hx)) Hx i Hi).
Qed.

(** X9.  On a 32-bit word and a count strictly between 0 and 32, [rotr] is
    the rotation to the right: the result is a 32-bit word whose bit [i] is
    bit [(i + n) mod 32] of the argument, and rotating on by [32 - n] gives
    the argument back. *)
Theorem rotr_rotates (x n : Z) :
  0 ≤ x < 2 ^ 32 → 0 < n < 32 →
  0 ≤ rotr x n < 2 ^ 32
  ∧ (∀ i, 0 ≤ i < 32 → Z.testbit (rotr x n) i = Z.testbit x ((i + n) mod 32))
  ∧ rotr (rotr x n) (32 - n) = x.
Proof.
  intros Hx Hn.
  assert (Hbits : ∀ y m i, 0 ≤ y < 2 ^ 32 → 0 < m < 32 → 0 ≤ i →
            Z.testbit (rotr y m) i
            = if i <? 32 then Z.testbit y ((i + m) mod 32) else false).
  { intros y m i Hy Hm Hi. unfold rotr, shl32, u32.
    rewrite Z.lor_spec, Z.shiftr_spec by lia.
    destruct (Z.ltb_spec i 32) as [Hlt | Hge].
    - rewrite Z.mod_pow2_bits_low, Z.shiftl_spec by lia.
      destruct (Z.lt_ge_cases (i + m) 32) as [Hlow | Hhigh].
      + rewrite Z.mod_small by lia.
        rewrite (Z.testbit_neg_r y (i - (32 - m))) by lia. apply orb_false_r.
      + rewrite (testbit_u32_high y (i + m)) by lia. cbn [orb]. f_equal.
        Z.div_mod_to_equations. lia.
    - rewrite Z.mod_pow2_bits_high by lia.
      rewrite (testbit_u32_high y (i + m)) by lia. reflexivity. }
  assert (Hrange : ∀ y m, 0 ≤ y < 2 ^ 32 → 0 < m < 32 → 0 ≤ rotr y m < 2 ^ 32).
  { intros y m Hy Hm.
    assert (Hnn : 0 ≤ rotr y m).
    { unfold rotr, shl32, u32. apply Z.lor_nonneg. split.
      - apply Z.shiftr_nonneg. lia.
      - apply Z.mod_pos_bound. lia. }
    split; [exact Hnn |].
    apply (proj2 (Z.bounded_iff_bits_nonneg 32 (rotr y m) ltac:(lia) Hnn)).
    intros i Hi. rewrite Hbits by lia.
    by replace (i <? 32) with false by (symmetry; apply Z.ltb_ge; lia). }
  split; [by apply Hrange |]. split.
  - intros i Hi. rewrite Hbits by lia.
    by replace (i <? 32) with true by (symmetry; apply Z.ltb_lt; lia).
  - apply Z.bits_inj'. intros i Hi.
    rewrite Hbits by (try apply Hrange; lia).
    destruct (Z.ltb_spec i 32) as [Hlt | Hge].
    + rewrite Hbits by (try apply Z.mod_pos_bound; lia).
      replace ((i + (32 - n)) mod 32 <? 32) with true
        by (symmetry; apply Z.ltb_lt; apply Z.mod_pos_bound; lia).
      f_equal. Z.div_mod_to_equations. lia.
    + by rewrite testbit_u32_high.
Qed.

Lemma rotr_rotates_witness :
  0 ≤ 0x80000001 < 2 ^ 32 ∧ 0 < 1 < 32 ∧ rotr (rotr 0x80000001 1) (32 - 1) = 0x80000001.
Proof.
  assert (H1 : 0 ≤ 0x80000001 < 2 ^ 32) by lia.
  assert (H2 : 0 < 1 < 32) by lia.
  split; [exact H1 |]. split; [exact H2 |].
  exact (proj2 (proj2 (rotr_rotates 0x80000001 1 H1 H2))).
Defined.

(** ** What an escape decodes to *)

#[local] Instance exn_eq_dec : EqDecision exn.
Proof. solve_decision. Defined.

#[local] Instance result_eq_dec {A} `{EqDecision A} : EqDecision (result A).
Proof. solve_decision. Defined.

Lemma all_ascii (a : ascii) : a ∈ map ascii_of_nat (seq 0 256).
Proof.
  apply list_elem_of_In, in_map_iff. exists (nat_of_ascii a).
  split; [apply ascii_nat_embedding |]. apply in_seq.
  pose proof (nat_ascii_bounded a). lia.
Qed.

(** [std::stoi] on the two characters after a [%], case by case. *)
Lemma stoi_16_two (a b : ascii) :
  stoi_16 [a; b]
  = match hex_value a, hex_value b with
    | Some x, Some y => Ok (16 * x + y)
    | Some x, None => Ok x
    | None, Some y =>
        if isspace a || Ascii.eqb a "+" then Ok y
        else if Ascii.eqb a "-" then Ok (- y)
        else Throw invalid_argument
    | None, None => Throw invalid_argument
    end.
Proof.
  assert (Hall : Forall (fun a => Forall (fun b =>
            stoi_16 [a; b]
            = match hex_value a, hex_value b with
              | Some x, Some y => Ok (16 * x + y)
              | Some x, None => Ok x
              | None, Some y =>
                  if isspace a || Ascii.eqb a "+" then Ok y
                  else if Ascii.eqb a "-" then Ok (- y)
                  else Throw invalid_argument
              | None, None => Throw invalid_argument
              end) (map ascii_of_nat (seq 0 256))) (map ascii_of_nat (seq 0 256))).
  { match goal with |- ?P => refine (bool_decide_eq_true_1 P _) end.
    vm_compute. reflexivity. }
  rewrite Forall_forall in Hall. specialize (Hall a (all_ascii a)).
  rewrite Forall_forall in Hall. exact (Hall b (all_ascii b)).
Qed.

Lemma url_decode_escape_eq (a b : ascii) (rest : list ascii) :
  url_decode ("%"%char :: a :: b :: rest)
  = (n ← stoi_16 [a; b]; decoded ← url_decode rest; Ok (to_char n :: decoded)).
Proof. by rewrite !url_decode_decode. Qed.

Lemma space_or_plus_not_hex (a : ascii) :
  isspace a || Ascii.eqb a "+" = true → hex_value a = None.
Proof. destruct a as [[] [] [] [] [] [] [] []]; vm_compute; congruence. Qed.

(** X10.  What [url_decode] makes of a [%] and the two characters after
    it, when they are not two hexadecimal digits.  A digit followed by
    another character gives the byte of the one digit, and the other
    character is lost; white space or [+] followed by a digit gives that
    digit's byte, [-] followed by a digit its negation as a byte; and
    everything else throws [std::invalid_argument]. *)
Theorem url_decode_lenient (a b : ascii) (rest : list ascii) :
  (∀ x, hex_value a = Some x → hex_value b = None →
        url_decode ("%"%char :: a :: b :: rest)
        = (decoded ← url_decode rest; Ok (to_char x :: decoded)))
  ∧ (∀ y, hex_value b = Some y → isspace a || Ascii.eqb a "+" = true →
          url_decode ("%"%char :: a :: b :: rest)
          = (decoded ← url_decode rest; Ok (to_char y :: decoded)))
  ∧ (∀ y, hex_value b = Some y → a = "-"%char →
          url_decode ("%"%char :: a :: b :: rest)
          = (decoded ← url_decode rest; Ok (to_char (256 - y) :: decoded)))
  ∧ (hex_value a = None →
     hex_value b = None ∨ (isspace a = false ∧ a ≠ "+"%char ∧ a ≠ "-"%char) →
     url_decode ("%"%char :: a :: b :: rest) = Throw invalid_argument).
Proof.
  rewrite url_decode_escape_eq, stoi_16_two.
  split; [| split; [| split]].
  - intros x -> ->. reflexivity.
  - intros y -> Hsp. by rewrite (space_or_plus_not_hex a Hsp), Hsp.
  - intros y -> ->.
    change (hex_value "-"%char) with (@None Z).
    change (isspace "-" || Ascii.eqb "-" "+") with false.
    change (Ascii.eqb "-" "-") with true. cbn [mbind result_bind].
    replace (to_char (- y)) with (to_char (256 - y)); [done |].
    unfold to_char, u8. do 2 f_equal.
    replace (256 - y) with (- y + 1 * 2 ^ 8) by lia. by rewrite Z.mod_add.
  - intros -> [-> | (Hsp & Hplus & Hminus)]; [done |].
    destruct (hex_value b); [| done].
    apply Ascii.eqb_neq in Hplus, Hminus. by rewrite Hsp, Hplus, Hminus.
Qed.

Lemma decode_throws (s : list ascii) (e : exn) :
  decode s = Throw e → e = invalid_argument.
Proof.
  cut (∀ n s, (length s ≤ n)%nat → decode s = Throw e → e = invalid_argument).
  { intros H. by apply (H (length s)). }
  clear s. induction n as [| n IH]; intros s Hn.
  - destruct s; [done | cbn in Hn; lia].
  - destruct s as [| c tl]; [done |].
    assert (Hplain : (decoded ← decode tl;
                      Ok ((if Ascii.eqb c "+" then " "%char else c) :: decoded)) = Throw e →
                     e = invalid_argument).
    { destruct (decode tl) as [d | e'] eqn:Hd; cbn [mbind result_bind]; [done |].
      intros [= <-]. apply (IH tl); [cbn in Hn; lia | done]. }
    destruct tl as [| a [| b rest]]; [exact Hplain | exact Hplain |].
    destruct (Ascii.eqb c "%") eqn:Hc.
    + apply Ascii.eqb_eq in Hc as ->. rewrite decode_escape, stoi_16_two.
      destruct (hex_value a), (hex_value b); cbn [mbind result_bind];
        repeat (match goal with |- context [if ?t then _ else _] => destruct t end;
                cbn [mbind result_bind]);
        try (by intros [= <-]);
        (destruct (decode rest) as [d | e'] eqn:Hd; cbn [mbind result_bind];
         [done | intros [= <-]; apply (IH rest); [cbn in Hn; lia | done]]).
    + rewrite decode_plain by done. exact Hplain.
Qed.

Lemma decode_length (s decoded : list ascii) :
  decode s = Ok decoded → (length decoded ≤ length s)%nat.
Proof.
  cut (∀ n s decoded, (length s ≤ n)%nat → decode s = Ok decoded →
                      (length decoded ≤ length s)%nat).
  { intros H. by apply (H (length s)). }
  clear s decoded. induction n as [| n IH]; intros s decoded Hn.
  - destruct s; [by intros [= <-] | cbn in Hn; lia].
  - destruct s as [| c tl]; [by intros [= <-] |].
    assert (Hplain : (decoded' ← decode tl;
                      Ok ((if Ascii.eqb c "+" then " "%char else c) :: decoded')) = Ok decoded →
                     (length decoded ≤ length (c :: tl))%nat).
    { destruct (decode tl) as [d | e'] eqn:Hd; cbn [mbind result_bind]; [| done].
      intros [= <-]. cbn [length]. apply le_n_S, (IH tl); [cbn in Hn; lia | done]. }
    destruct tl as [| a [| b rest]]; [exact Hplain | exact Hplain |].
    destruct (Ascii.eqb c "%") eqn:Hc.
    + apply Ascii.eqb_eq in Hc as ->. rewrite decode_escape.
      destruct (stoi_16 [a; b]); cbn [mbind result_bind]; [| done].
      destruct (decode rest) as [d | e'] eqn:Hd; cbn [mbind result_bind]; [| done].
      intros [= <-]. cbn [length].
      pose proof (IH rest d ltac:(cbn in Hn; lia) Hd). lia.
    + rewrite decode_plain by done. exact Hplain.
Qed.

Lemma decode_no_percent (s : list ascii) :
  "%"%char ∉ s →
  decode s = Ok (map (fun c => if Ascii.eqb c "+" then " "%char else c) s).
Proof.
  induction s as [| c s IH]; intros Hs; [done |].
  apply not_elem_of_cons in Hs as [Hc%Ascii.eqb_neq Hs].
  rewrite decode_plain, IH by done. reflexivity.
Qed.

(** X11.  The one exception [url_decode] and
    [extract_code_from_callback_target] can throw is
    [std::invalid_argument]: [substr] is never out of range and no escape
    overflows an [int].  When [url_decode] returns, the result is no longer
    than the input; and a text without [%] decodes to itself with every [+]
    turned into a space. *)
Theorem url_decode_bounds (value : list ascii) :
  (∀ e, url_decode value = Throw e → e = invalid_argument)
  ∧ (∀ decoded, url_decode value = Ok decoded → (length decoded ≤ length value)%nat)
  ∧ (("%"%char ∉ value) →
     url_decode value = Ok (map (fun c => if Ascii.eqb c "+" then " "%char else c) value))
  ∧ (∀ e, extract_code_from_callback_target value = Throw e → e = invalid_argument).
Proof.
  rewrite url_decode_decode.
  split; [intros e; apply decode_throws |].
  split; [intros decoded; apply decode_length |].
  split; [apply decode_no_percent |].
  intros e. destruct (first_occurrence "?" value) as [Hno | (path & query & -> & Hpath)].
  - by rewrite extract_code_no_query.
  - rewrite extract_code_spec by done. unfold Standard.first_code.
    destruct (List.find _ _) as [seg |]; [| done].
    rewrite url_decode_decode.
    destruct (decode (drop 5 seg)) as [d | e'] eqn:Hd; cbn [mbind result_bind]; [done |].
    intros [= <-]. by apply decode_throws in Hd.
Qed.

(** X12.  When [wait_for_callback_code] throws, it is
    [std::invalid_argument] out of the decoding of the code, and it happens
    after [recv]: the response has not been sent and neither socket has been
    closed. *)
Theorem wait_for_callback_code_throws (n : net) (port : Z) (e : exn) (w : world) :
  wait_for_callback_code port (start n) = (Throw e, w) →
  e = invalid_argument
  ∧ w = World n 1 [EvSocket (socket_ret n 0); EvSetReuseAddr (socket_ret n 0);
                   EvBind (socket_ret n 0) port; EvListen (socket_ret n 0) 1;
                   EvAccept (socket_ret n 0); EvRecv (accept_ret n) 4095]
  ∧ (∀ s, EvClose s ∉ log w)
  ∧ (∀ s payload, EvSend s payload ∉ log w).
Proof.
  intros Hrun.
  assert (Hshape : e = invalid_argument
            ∧ w = World n 1 [EvSocket (socket_ret n 0); EvSetReuseAddr (socket_ret n 0);
                             EvBind (socket_ret n 0) port; EvListen (socket_ret n 0) 1;
                             EvAccept (socket_ret n 0); EvRecv (accept_ret n) 4095]).
  { destruct (Z.eqb_spec (socket_ret n 0) kInvalidSocket) as [Hs | Hs].
    { revert Hrun. unfold wait_for_callback_code, start, io_bind, sys_socket, io_ret.
      cbn [os socket_calls log app]. rewrite Hs. done. }
    destruct (Z.eqb_spec (bind_ret n port) 0) as [Hb | Hb].
    2:{ revert Hrun. apply Z.eqb_neq in Hs, Hb.
        unfold wait_for_callback_code, start, io_bind, sys_socket, sys_setsockopt_reuseaddr,
          bind_localhost_port, close_socket, emit, io_ret.
        cbn [os socket_calls log app]. rewrite Hs. cbn [os socket_calls log app].
        rewrite Hb. done. }
    destruct (Z.eqb_spec (listen_ret n) 0) as [Hl | Hl].
    2:{ revert Hrun. apply Z.eqb_neq in Hs, Hl.
        unfold wait_for_callback_code, start, io_bind, sys_socket, sys_setsockopt_reuseaddr,
          bind_localhost_port, sys_listen, close_socket, emit, io_ret.
        cbn [os socket_calls log app]. rewrite Hs. cbn [os socket_calls log app].
        rewrite Hb. cbn [Z.eqb negb os socket_calls log app]. rewrite Hl. done. }
    rewrite (wait_for_callback_code_run n port Hs Hb Hl) in Hrun.
    destruct (accept_ret n =? kInvalidSocket); [done |].
    destruct (Standard.request n) as [req |]; [| done].
    destruct (request_target_ok req) as [target Ht]. rewrite Ht in Hrun.
    cbn [mbind result_bind] in Hrun. destruct target as [target |]; [| done].
    destruct (extract_code_from_callback_target target) as [code | e'] eqn:Hx; [done |].
    injection Hrun as <- <-. split; [| done].
    destruct (first_occurrence "?" target) as [Hno | (path & query & -> & Hpath)].
    - by rewrite extract_code_no_query in Hx.
    - rewrite extract_code_spec in Hx by done. unfold Standard.first_code in Hx.
      destruct (List.find _ _) as [seg |]; [| done].
      rewrite url_decode_decode in Hx.
      destruct (decode (drop 5 seg)) as [d | e''] eqn:Hd; cbn [mbind result_bind] in Hx;
        [done |].
      injection Hx as <-. by apply decode_throws in Hd. }
  destruct Hshape as [-> ->]. repeat split; cbn [log].
  - intros s Hin.
    repeat (apply elem_of_cons in Hin as [Hin | Hin]; [discriminate |]).
    by apply elem_of_nil in Hin.
  - intros s payload Hin.
    repeat (apply elem_of_cons in Hin as [Hin | Hin]; [discriminate |]).
    by apply elem_of_nil in Hin.
Qed.

Lemma wait_for_callback_code_throws_witness :
  let n := Net (fun _ => 3) (fun _ => 0) 0 4 (Some (str "GET /?code=%zz HTTP/1.1")) in
  let w := World n 1 [EvSocket 3; EvSetReuseAddr 3; EvBind 3 2259; EvListen 3 1;
                      EvAccept 3; EvRecv 4 4095] in
  wait_for_callback_code 2259 (start n) = (Throw invalid_argument, w)
  ∧ (∀ s, EvClose s ∉ log w).
Proof.
  intros n w.
  assert (H : wait_for_callback_code 2259 (start n) = (Throw invalid_argument, w))
    by (by vm_compute).
  split; [exact H |].
  exact (proj1 (proj2 (proj2 (wait_for_callback_code_throws n 2259 invalid_argument w H)))).
Defined.

(** ** random_alnum *)

Lemma random_alnum_loop_run {rng} (dist : Z → Z → rng → Z * rng) (n : nat) (g : rng)
    (result : list ascii) :
  length (random_alnum_loop dist n g result).1 = (length result + n)%nat
  ∧ (random_alnum_loop dist n g result).2
    = Nat.iter n (fun g => (dist 0 (sizeof_charset - 2) g).2) g.
Proof.
  revert g result. induction n as [| n IH]; intros g result.
  - cbn. split; [lia | done].
  - cbn [random_alnum_loop]. rewrite Nat.iter_succ_r.
    destruct (dist 0 (sizeof_charset - 2) g) as [k g'] eqn:Hd. cbn [snd].
    destruct (IH g' (result ++ [nth (Z.to_nat k) charset "000"%char])) as [IH1 IH2].
    split; [| done]. rewrite IH1, length_app. cbn. lia.
Qed.

(** X13.  [random_alnum len] returns exactly [len] characters and draws from
    the generator exactly [len] times, each time between 0 and 61, whatever
    the generator gives; when every draw is within these bounds, as the
    distribution promises, every character is a letter or a digit. *)
Theorem random_alnum_spec {rng} (dist : Z → Z → rng → Z * rng) (len : nat) (g : rng) :
  length (random_alnum dist len g).1 = len
  ∧ (random_alnum dist len g).2 = Nat.iter len (fun g => (dist 0 61 g).2) g
  ∧ ((∀ a b g, a ≤ b → a ≤ (dist a b g).1 ≤ b) →
     Forall (fun c => Standard.is_alnum c = true) (random_alnum dist len g).1).
Proof.
  unfold random_alnum.
  destruct (random_alnum_loop_run dist len g []) as [Hlen Hgen].
  split; [exact Hlen |]. split; [exact Hgen |].
  intros Hrange. by apply (random_alnum_loop_spec dist Hrange len g []).
Qed.

(** ** The callers *)

Lemma url_encode_device_id :
  url_encode device_id = str "0eEyHnQIzdmwiIeQ56sBduGKnPXYjDb_npVDaPwBl30".
Proof. by vm_compute. Qed.

Lemma pick_callback_port_runs (n : net) :
  ∃ (r : option Z) (w : world),
    pick_callback_port (start n) = (Ok r, w)
    ∧ (∀ p, r = Some p → p ∈ kRedirectPorts)
    ∧ (r = None ↔ ∀ i p, kRedirectPorts !! i = Some p → Standard.available n i p = false).
Proof.
  destruct (pick_callback_port_loop_spec n kRedirectPorts 0 []) as (r & k & Hrun & Hr).
  exists r, (World n (0 + k) ([] ++ Standard.probes_log n 0 (take k kRedirectPorts))).
  split; [exact Hrun |]. split.
  - intros p ->. destruct Hr as (i & _ & Hi & _). by eapply list_elem_of_lookup_2.
  - split.
    + intros ->. by destruct Hr as [_ Hnone].
    + intros Hnone. destruct r as [p |]; [| done].
      destruct Hr as (i & _ & Hi & Hav & _). cbn [Nat.add] in Hav.
      pose proof (Hnone i p Hi). congruence.
Qed.

Lemma auth_url_prefix (now : Z) (pkce : PkceChallenge) (port : Z) (provider : LoginProvider) :
  ∃ rest,
    build_auth_url now pkce port provider
    = str "https://login.nvidia.com/authorize?response_type=code&device_id=0eEyHnQI" ++ rest.
Proof.
  unfold build_auth_url. rewrite url_encode_device_id.
  match goal with
  | |- context [str "&scope=" ++ ?t] => generalize (str "&scope=" ++ t)
  end.
  intros tail. exists (str "zdmwiIeQ56sBduGKnPXYjDb_npVDaPwBl30" ++ tail).
  reflexivity.
Qed.

(** X14.  [login_bootstrap_preview] never throws, and what it shows of the
    URL is always the same 72 characters: the endpoint, [response_type=code]
    and the first eight characters of the device id; nothing of the
    challenge or the nonce.  The port shown is the one
    [pick_callback_port] found, 2259 when it found none. *)
Theorem login_bootstrap_preview_spec {rng} (dist : Z → Z → rng → Z * rng) (now : Z) (g : rng)
    (n : net) :
  ∃ (picked : option Z) (w : world),
    pick_callback_port (start n) = (Ok picked, w)
    ∧ login_bootstrap_preview dist now g (start n)
      = (Ok (str "Login base initialized (provider=NVIDIA, callback_port="
               ++ to_string (value_or picked 2259)
               ++ str ", auth_url_prefix=https://login.nvidia.com/authorize?response_type=code&device_id=0eEyHnQI...)",
             (make_pkce_challenge dist g).2),
         w)
    ∧ value_or picked 2259 ∈ kRedirectPorts.
Proof.
  destruct (pick_callback_port_runs n) as (picked & w & Hrun & Hin & _).
  exists picked, w. split; [exact Hrun |]. split.
  - unfold login_bootstrap_preview.
    destruct (make_pkce_challenge dist g) as [pkce g']. cbn [snd].
    unfold io_bind at 1. rewrite Hrun.
    destruct (auth_url_prefix now pkce (value_or picked 2259) nvidia_default) as [rest ->].
    unfold io_bind, lift, io_ret. rewrite substr_0.
    change 72%nat
      with (length (str "https://login.nvidia.com/authorize?response_type=code&device_id=0eEyHnQI")).
    rewrite take_app_length. reflexivity.
  - destruct picked as [p |]; cbn [value_or]; [by apply Hin |].
    apply list_elem_of_lookup. by exists 0%nat.
Qed.

(** ** The smoke test *)

Lemma starts_with_app (pat rest : list ascii) : starts_with pat (pat ++ rest) = true.
Proof.
  induction pat as [| c pat IH]; [done |].
  cbn [app starts_with]. by rewrite Ascii.eqb_refl, IH.
Qed.

Lemma find_str_prefix (pat rest : list ascii) : find_str pat (pat ++ rest) = Some O.
Proof.
  destruct (pat ++ rest) as [| x s] eqn:Heq; cbn [find_str];
    rewrite <- Heq, starts_with_app; reflexivity.
Qed.

Lemma find_str_infix (pat before after : list ascii) :
  find_str pat (before ++ pat ++ after) ≠ None.
Proof.
  induction before as [| x before IH].
  - cbn [app]. by rewrite find_str_prefix.
  - cbn [app find_str]. destruct (starts_with pat (x :: before ++ pat ++ after)); [done |].
    destruct (find_str pat (before ++ pat ++ after)); done.
Qed.

Lemma auth_url_marker (now : Z) (pkce : PkceChallenge) (port : Z) (provider : LoginProvider) :
  ∃ before after,
    build_auth_url now pkce port provider
    = before ++ str "code_challenge_method=S256" ++ after.
Proof.
  unfold build_auth_url.
  generalize (url_encode device_id) (url_encode kScopes) (url_encode kClientId)
    (url_encode (str "http://localhost:" ++ to_string port))
    (url_encode (generate_nonce now)) (url_encode (challenge pkce))
    (url_encode (idp_id provider)).
  intros e1 e2 e3 e4 e5 e6 e7.
  exists (str "https://login.nvidia.com/authorize?" ++ str "response_type=code"
            ++ str "&device_id=" ++ e1 ++ str "&scope=" ++ e2 ++ str "&client_id=" ++ e3
            ++ str "&redirect_uri=" ++ e4 ++ str "&ui_locales=en_US" ++ str "&nonce=" ++ e5
            ++ str "&prompt=select_account" ++ str "&code_challenge=" ++ e6 ++ ["&"%char]),
         (str "&idp_id=" ++ e7).
  rewrite <- !app_assoc. reflexivity.
Qed.

Lemma auth_url_start (now : Z) (pkce : PkceChallenge) (port : Z) (provider : LoginProvider) :
  ∃ rest,
    build_auth_url now pkce port provider
    = str "https://login.nvidia.com/authorize" ++ rest.
Proof.
  unfold build_auth_url.
  match goal with
  | |- context [str "response_type=code" ++ ?t] => generalize (str "response_type=code" ++ t)
  end.
  intros tail. exists ("?"%char :: tail). reflexivity.
Qed.

(** X15.  The smoke test can fail in one way only: its checks of the PKCE
    pair, of the URL and of the code extraction pass for every generator and
    clock, and it ends with status 0 exactly when [pick_callback_port] finds
    a port, with status 1 and the port message otherwise. *)
Theorem login_smoke_main_spec {rng} (dist : Z → Z → rng → Z * rng) (now : Z) (g : rng)
    (n : net) :
  ∃ (picked : option Z) (w : world),
    pick_callback_port (start n) = (Ok picked, w)
    ∧ login_smoke_main dist now g (start n)
      = (Ok (match picked with
             | Some _ => (0, str "login_smoke ok")
             | None => (1, str "callback port selection failed")
             end), w)
    ∧ (picked = None
       ↔ ∀ i p, kRedirectPorts !! i = Some p → Standard.available n i p = false).
Proof.
  destruct (pick_callback_port_runs n) as (picked & w & Hrun & _ & Hnone).
  exists picked, w. split; [exact Hrun |]. split; [| exact Hnone].
  unfold login_smoke_main.
  destruct (random_alnum_loop_run dist 64 g []) as [Hlen _].
  unfold make_pkce_challenge, random_alnum.
  destruct (random_alnum_loop dist 64 g []) as [v g']. cbn [fst length Nat.add] in Hlen.
  cbn [verifier challenge].
  destruct (digest_token v) as [Hlen' _].
  rewrite Hlen, Hlen'. cbn [Nat.ltb Nat.leb orb].
  rewrite bool_decide_eq_false_2.
  2:{ intros Hne. apply Hne.
      pose proof (base64url_no_pad (sha256 v)) as Hpad. by apply find_char_None. }
  destruct (auth_url_start now {| verifier := v; challenge := base64url (sha256 v) |}
              2259 nvidia_default) as [rest Hstart].
  destruct (auth_url_marker now {| verifier := v; challenge := base64url (sha256 v) |}
              2259 nvidia_default) as (before & after & Hmarker).
  rewrite bool_decide_eq_false_2.
  2:{ intros Hne. apply Hne. rewrite Hstart. apply find_str_prefix. }
  rewrite bool_decide_eq_false_2.
  2:{ rewrite Hmarker. apply find_str_infix. }
  assert (Hcode : extract_code_from_callback_target (str "/?code=abc123%2Ffoo%2Bbar&state=foo")
                  = Ok (Some (str "abc123/foo+bar"))) by (by vm_compute).
  unfold io_bind at 1, lift. rewrite Hcode.
  rewrite bool_decide_eq_true_2 by done. cbn [negb].
  unfold io_bind, io_ret. rewrite Hrun.
  by destruct picked.
Qed.
